(** * libgcrypt, cipher/mac.c: the MAC dispatcher

    A shallow embedding of the message authentication code dispatcher
    (registry lookups, handle life cycle, operation dispatch, information
    queries) and the properties its specification states about it.

    Conventions.
    - [int] is [Z]; [size_t] and [unsigned int] lengths are [N]; the
      [unsigned int] flag word is a [Z] handled with [Z.land]/[Z.lnot].
    - A C string is a [string] (the terminating NUL is implicit); a pointer
      that may be NULL is an [option].
    - Heap objects live in a finite map from addresses to blocks; every
      function that touches the heap runs in the monad [M], whose failure
      stands for undefined behaviour (a dangling or NULL dereference).
    - The algorithm implementations are parameters: a capability table
      holds total functions that read the handle and yield an error code
      and the new contents of the handle's algorithm-specific part.
    - Allocation, release and wiping are recorded in a trace together with
      every call into an algorithm, so that the order of these steps can be
      stated. *)

From Stdlib Require Import ZArith NArith String Ascii List Bool Lia.
From stdpp Require Import base option gmap.

Local Open Scope Z_scope.

(** ** Error values (libgpg-error) *)

Module Err.

Definition gcry_err_code_t := Z.
Definition gcry_error_t := Z.

(** Modelled from the spec: the error kinds of section 7.  The header that
    numbers them (gpg-error.h) is not part of cipher/mac.c; the values are
    those of libgpg-error.  [GPG_ERR_INV_ARG] is InvalidArgument,
    [GPG_ERR_INV_OP] is UnsupportedOperation, [GPG_ERR_MAC_ALGO] is
    UnknownAlgorithm. *)
Definition GPG_ERR_NO_ERROR : gcry_err_code_t := 0.
Definition GPG_ERR_INV_ARG : gcry_err_code_t := 45.
Definition GPG_ERR_INV_OP : gcry_err_code_t := 61.
Definition GPG_ERR_MAC_ALGO : gcry_err_code_t := 197.
Definition GPG_ERR_ENOMEM : gcry_err_code_t := 32854.
Definition GPG_ERR_MISSING_ERRNO : gcry_err_code_t := 16381.
Definition GPG_ERR_UNKNOWN_ERRNO : gcry_err_code_t := 16382.

Definition GPG_ERR_SOURCE_GCRYPT : Z := 1.
Definition GPG_ERR_SOURCE_DEFAULT : Z := GPG_ERR_SOURCE_GCRYPT.
Definition GPG_ERR_SOURCE_MASK : Z := 127.
Definition GPG_ERR_SOURCE_SHIFT : Z := 24.
Definition GPG_ERR_CODE_MASK : Z := 65535.

(** Modelled from the spec: errors are returned as values.  [gpg_err_make]
    (gpg-error.h, outside cipher/mac.c) tags a code with the error source
    and maps the code 0 to the value 0. *)
Definition gpg_err_make (source : Z) (code : gcry_err_code_t) : gcry_error_t :=
  if code =? GPG_ERR_NO_ERROR then GPG_ERR_NO_ERROR
  else Z.lor (Z.shiftl (Z.land source GPG_ERR_SOURCE_MASK) GPG_ERR_SOURCE_SHIFT)
             (Z.land code GPG_ERR_CODE_MASK).

Definition gpg_error (code : gcry_err_code_t) : gcry_error_t :=
  gpg_err_make GPG_ERR_SOURCE_DEFAULT code.

Definition gcry_error (code : gcry_err_code_t) : gcry_error_t :=
  gpg_err_make GPG_ERR_SOURCE_DEFAULT code.

(** The code part of an error value. *)
Definition gpg_err_code (e : gcry_error_t) : gcry_err_code_t :=
  Z.land e GPG_ERR_CODE_MASK.

End Err.
Export Err.

(** ** Control commands and flags (gcrypt.h, mac-internal.h) *)

(** Modelled from the spec: the query and command selectors and the single
    recognised open flag.  gcrypt.h is not part of cipher/mac.c; the values
    are those of [enum gcry_ctl_cmds] and [enum gcry_mac_flags]. *)
Definition GCRYCTL_RESET : Z := 4.
Definition GCRYCTL_GET_KEYLEN : Z := 6.
Definition GCRYCTL_TEST_ALGO : Z := 8.
Definition GCRY_MAC_FLAG_SECURE : Z := 1.

(** Modelled from the spec: one sentinel per allocation pool stamped into the
    handle's tag field.  mac-internal.h is not part of cipher/mac.c. *)
Definition CTX_MAGIC_NORMAL : Z := 0x59d9b8af.
Definition CTX_MAGIC_SECURE : Z := 0x12c27cd0.

(** ** Case-insensitive comparison *)

Definition tolower (c : ascii) : ascii :=
  let n := nat_of_ascii c in
  if ((65 <=? n) && (n <=? 90))%nat then ascii_of_nat (n + 32) else c.

(** Modelled from the spec: the registry compares names case-insensitively.
    [stricmp] is declared outside cipher/mac.c; it is the usual
    byte-wise comparison after folding ASCII letters to lower case, zero
    exactly when the two strings are equal up to case. *)
Fixpoint stricmp (a b : string) : Z :=
  match a, b with
  | EmptyString, EmptyString => 0
  | EmptyString, String d _ => - Z.of_nat (nat_of_ascii (tolower d))
  | String c _, EmptyString => Z.of_nat (nat_of_ascii (tolower c))
  | String c a', String d b' =>
      let x := Z.of_nat (nat_of_ascii (tolower c)) in
      let y := Z.of_nat (nat_of_ascii (tolower d)) in
      if x =? y then stricmp a' b' else x - y
  end.

(** A C string has no NUL before its end. *)
Definition cstring (s : string) : bool :=
  forallb (fun c => negb (Ascii.eqb c Ascii.zero)) (list_ascii_of_string s).

(** ** Data model (mac-internal.h) *)

(** The test [p != NULL] on a pointer. *)
Definition non_null {A} (p : option A) : bool :=
  match p with Some _ => true | None => false end.

Definition bytes := list Byte.byte.

(** An address of a heap block; [None] is the NULL pointer. *)
Definition loc := positive.
Definition gcry_mac_hd_t := option loc.
Definition gcry_ctx_t := option positive.

Section Types.

(** The algorithm-specific part of a handle (the union [u]), opaque to the
    dispatcher. *)
Context {context : Type}.

(** What an algorithm callback sees of the handle it is given: every field
    but the descriptor pointer.  A callback returns the new contents of
    [u]; the dispatcher's own fields are not its to write. *)
Record mac_view := {
  v_magic : Z;
  v_algo : Z;
  v_gcry_ctx : gcry_ctx_t;
  v_u : context
}.

(** [gcry_mac_spec_ops_t]: the capability table; an absent entry is a NULL
    function pointer. *)
Record gcry_mac_spec_ops_t := {
  open : option (mac_view -> gcry_err_code_t * context);
  close : option (mac_view -> context);
  setkey : option (mac_view -> option bytes -> N -> gcry_err_code_t * context);
  setiv : option (mac_view -> option bytes -> N -> gcry_err_code_t * context);
  reset : option (mac_view -> gcry_err_code_t * context);
  write : option (mac_view -> option bytes -> N -> gcry_err_code_t * context);
  read : option (mac_view -> bytes -> N -> gcry_err_code_t * context * (bytes * N));
  verify : option (mac_view -> bytes -> N -> gcry_err_code_t * context);
  get_maclen : option (Z -> N);
  get_keylen : option (Z -> N)
}.

(** [gcry_mac_spec_t]: one algorithm descriptor. *)
Record gcry_mac_spec_t := {
  algo : Z;
  flags_disabled : bool;
  name : string;
  ops : option gcry_mac_spec_ops_t
}.

(** The build configuration: which digest algorithms are compiled in. *)
Record build_config := {
  USE_SHA1 : bool;
  USE_SHA256 : bool;
  USE_SHA512 : bool;
  USE_GOST_R_3411_94 : bool;
  USE_GOST_R_3411_12 : bool;
  USE_WHIRLPOOL : bool;
  USE_RMD160 : bool;
  USE_TIGER : bool;
  USE_MD5 : bool;
  USE_MD4 : bool
}.

Definition all_features : build_config :=
  {| USE_SHA1 := true; USE_SHA256 := true; USE_SHA512 := true;
     USE_GOST_R_3411_94 := true; USE_GOST_R_3411_12 := true;
     USE_WHIRLPOOL := true; USE_RMD160 := true; USE_TIGER := true;
     USE_MD5 := true; USE_MD4 := true |}.

(** The descriptors the table names; each is defined with its algorithm's
    implementation. *)
Record hmac_type_specs := {
  _gcry_mac_type_spec_hmac_sha1 : gcry_mac_spec_t;
  _gcry_mac_type_spec_hmac_sha256 : gcry_mac_spec_t;
  _gcry_mac_type_spec_hmac_sha224 : gcry_mac_spec_t;
  _gcry_mac_type_spec_hmac_sha512 : gcry_mac_spec_t;
  _gcry_mac_type_spec_hmac_sha384 : gcry_mac_spec_t;
  _gcry_mac_type_spec_hmac_gost3411_94 : gcry_mac_spec_t;
  _gcry_mac_type_spec_hmac_stribog256 : gcry_mac_spec_t;
  _gcry_mac_type_spec_hmac_stribog512 : gcry_mac_spec_t;
  _gcry_mac_type_spec_hmac_whirlpool : gcry_mac_spec_t;
  _gcry_mac_type_spec_hmac_rmd160 : gcry_mac_spec_t;
  _gcry_mac_type_spec_hmac_tiger1 : gcry_mac_spec_t;
  _gcry_mac_type_spec_hmac_md5 : gcry_mac_spec_t;
  _gcry_mac_type_spec_hmac_md4 : gcry_mac_spec_t
}.

(** The contents of [mac_list] for a build configuration, in table order;
    the terminating NULL is the end of the list. *)
Definition mac_list_table (cfg : build_config) (d : hmac_type_specs)
    : list gcry_mac_spec_t :=
  (if USE_SHA1 cfg then [_gcry_mac_type_spec_hmac_sha1 d] else [])
  ++ (if USE_SHA256 cfg
      then [_gcry_mac_type_spec_hmac_sha256 d;
            _gcry_mac_type_spec_hmac_sha224 d] else [])
  ++ (if USE_SHA512 cfg
      then [_gcry_mac_type_spec_hmac_sha512 d;
            _gcry_mac_type_spec_hmac_sha384 d] else [])
  ++ (if USE_GOST_R_3411_94 cfg
      then [_gcry_mac_type_spec_hmac_gost3411_94 d] else [])
  ++ (if USE_GOST_R_3411_12 cfg
      then [_gcry_mac_type_spec_hmac_stribog256 d;
            _gcry_mac_type_spec_hmac_stribog512 d] else [])
  ++ (if USE_WHIRLPOOL cfg then [_gcry_mac_type_spec_hmac_whirlpool d] else [])
  ++ (if USE_RMD160 cfg then [_gcry_mac_type_spec_hmac_rmd160 d] else [])
  ++ (if USE_TIGER cfg then [_gcry_mac_type_spec_hmac_tiger1 d] else [])
  ++ (if USE_MD5 cfg then [_gcry_mac_type_spec_hmac_md5 d] else [])
  ++ (if USE_MD4 cfg then [_gcry_mac_type_spec_hmac_md4 d] else []).

(** A check that no two names in a list of descriptors are equal up to
    case. *)
Definition name_differs (n : string) (t : gcry_mac_spec_t) : bool :=
  negb (stricmp n (name t) =? 0) && negb (stricmp (name t) n =? 0).

Fixpoint names_distinctb (l : list gcry_mac_spec_t) : bool :=
  match l with
  | [] => true
  | s :: rest => forallb (name_differs (name s)) rest && names_distinctb rest
  end.

(** The descriptor [s] with its disabled flag set to [b], and a registry
    with every flag replaced by what [f] says. *)
Definition set_disabled (b : bool) (s : gcry_mac_spec_t) : gcry_mac_spec_t :=
  {| algo := algo s; flags_disabled := b; name := name s; ops := ops s |}.

Definition reflag (f : gcry_mac_spec_t -> bool) (l : list gcry_mac_spec_t)
    : list gcry_mac_spec_t :=
  map (fun s => set_disabled (f s) s) l.

(** [struct gcry_mac_handle]. *)
Record gcry_mac_handle := {
  magic : Z;
  h_algo : Z;
  spec : option gcry_mac_spec_t;
  gcry_ctx : gcry_ctx_t;
  u : context
}.

Definition view (h : gcry_mac_handle) : mac_view :=
  {| v_magic := magic h; v_algo := h_algo h;
     v_gcry_ctx := gcry_ctx h; v_u := u h |}.

Definition set_u (h : gcry_mac_handle) (c : context) : gcry_mac_handle :=
  {| magic := magic h; h_algo := h_algo h; spec := spec h;
     gcry_ctx := gcry_ctx h; u := c |}.

(** *** The heap and the allocator *)

Inductive pool := NormalPool | SecurePool.

Record block := { blk_pool : pool; blk_data : gcry_mac_handle }.

Inductive op_id :=
  OpOpen | OpClose | OpSetkey | OpSetiv | OpReset | OpWrite | OpRead | OpVerify.

(** What the dispatcher asks of its collaborators, in the order asked. *)
Inductive event :=
| EvCalloc (p : pool) (r : option loc)
| EvWipe (a : loc)
| EvFree (a : loc)
| EvCall (o : op_id) (a : loc).

Record world := {
  heap : gmap loc block;
  normal_left : nat;
  secure_left : nat;
  errno : Z;
  trace : list event
}.

Definition M (A : Type) : Type := world -> option (A * world).

Definition ret {A} (x : A) : M A := fun w => Some (x, w).

Definition bind {A B} (m : M A) (k : A -> M B) : M B :=
  fun w => match m w with
           | Some (x, w') => k x w'
           | None => None
           end.

(** Undefined behaviour. *)
Definition undef {A} : M A := fun _ => None.

End Types.

Arguments mac_view : clear implicits.
Arguments gcry_mac_spec_ops_t : clear implicits.
Arguments gcry_mac_spec_t : clear implicits.
Arguments hmac_type_specs : clear implicits.
Arguments gcry_mac_handle : clear implicits.
Arguments block : clear implicits.
Arguments world : clear implicits.
Arguments M : clear implicits.

Declare Scope mac_scope.
Delimit Scope mac_scope with mac.
Notation "x <- m ;; k" := (bind m (fun x => k))
  (at level 100, m at next level, right associativity) : mac_scope.
Notation "m ;;; k" := (bind m (fun _ => k))
  (at level 100, right associativity) : mac_scope.

(** ** A sample registry

    A toy algorithm with the shape of the HMAC descriptors (no [setiv]
    entry): its state is the key and the message so far, and its tag is
    their concatenation.  It serves as the concrete instance on which the
    statements below are exercised. *)

Module Sample.

Record toy := { t_key : bytes; t_msg : bytes }.

Definition toy_zero : toy := {| t_key := []; t_msg := [] |}.

Definition take_bytes (p : option bytes) (n : N) : bytes :=
  firstn (N.to_nat n) (match p with Some b => b | None => [] end).

Definition toy_tag (c : toy) : bytes := t_key c ++ t_msg c.

Definition GPG_ERR_CHECKSUM : gcry_err_code_t := 10.
Definition GPG_ERR_NOT_SUPPORTED : gcry_err_code_t := 60.

Definition toy_open (v : mac_view toy) : gcry_err_code_t * toy :=
  (0, toy_zero).

Definition toy_open_fails (v : mac_view toy) : gcry_err_code_t * toy :=
  (GPG_ERR_NOT_SUPPORTED, v_u v).

Definition toy_close (v : mac_view toy) : toy := toy_zero.

Definition toy_setkey (v : mac_view toy) (key : option bytes) (keylen : N)
    : gcry_err_code_t * toy :=
  (0, {| t_key := take_bytes key keylen; t_msg := [] |}).

Definition toy_reset (v : mac_view toy) : gcry_err_code_t * toy :=
  (0, {| t_key := t_key (v_u v); t_msg := [] |}).

Definition toy_write (v : mac_view toy) (inbuf : option bytes) (inlen : N)
    : gcry_err_code_t * toy :=
  (0, {| t_key := t_key (v_u v);
         t_msg := t_msg (v_u v) ++ take_bytes inbuf inlen |}).

Definition toy_read (v : mac_view toy) (outbuf : bytes) (outlen : N)
    : gcry_err_code_t * toy * (bytes * N) :=
  let tag := firstn (N.to_nat outlen) (toy_tag (v_u v)) in
  (0, v_u v, (tag ++ skipn (length tag) outbuf, N.of_nat (length tag))).

Fixpoint bytes_eqb (a b : bytes) : bool :=
  match a, b with
  | [], [] => true
  | x :: a', y :: b' => Byte.eqb x y && bytes_eqb a' b'
  | _, _ => false
  end.

Definition toy_verify (v : mac_view toy) (buf : bytes) (buflen : N)
    : gcry_err_code_t * toy :=
  (if bytes_eqb (firstn (N.to_nat buflen) buf) (toy_tag (v_u v)) then 0
   else GPG_ERR_CHECKSUM, v_u v).

Definition toy_ops : gcry_mac_spec_ops_t toy :=
  {| open := Some toy_open; close := Some toy_close;
     setkey := Some toy_setkey; setiv := None; reset := Some toy_reset;
     write := Some toy_write; read := Some toy_read;
     verify := Some toy_verify;
     get_maclen := Some (fun _ => 32%N); get_keylen := Some (fun _ => 64%N) |}.

(** The same table without the optional [close]. *)
Definition toy_ops_noclose : gcry_mac_spec_ops_t toy :=
  {| open := Some toy_open; close := None;
     setkey := Some toy_setkey; setiv := None; reset := Some toy_reset;
     write := Some toy_write; read := Some toy_read;
     verify := Some toy_verify;
     get_maclen := Some (fun _ => 20%N); get_keylen := Some (fun _ => 64%N) |}.

(** A table whose [open] reports an error. *)
Definition toy_ops_badopen : gcry_mac_spec_ops_t toy :=
  {| open := Some toy_open_fails; close := Some toy_close;
     setkey := Some toy_setkey; setiv := None; reset := Some toy_reset;
     write := Some toy_write; read := Some toy_read;
     verify := Some toy_verify;
     get_maclen := Some (fun _ => 16%N); get_keylen := Some (fun _ => 64%N) |}.

(** A partial table: no [verify]. *)
Definition toy_ops_partial : gcry_mac_spec_ops_t toy :=
  {| open := Some toy_open; close := Some toy_close;
     setkey := Some toy_setkey; setiv := None; reset := Some toy_reset;
     write := Some toy_write; read := Some toy_read;
     verify := None;
     get_maclen := Some (fun _ => 16%N); get_keylen := None |}.

Definition toy_spec (id : Z) (nm : string) : gcry_mac_spec_t toy :=
  {| algo := id; flags_disabled := false; name := nm; ops := Some toy_ops |}.

Definition hmac_sha1 : gcry_mac_spec_t toy :=
  {| algo := 105; flags_disabled := false; name := "HMAC_SHA1";
     ops := Some toy_ops_noclose |}.
Definition hmac_sha256 : gcry_mac_spec_t toy := toy_spec 101 "HMAC_SHA256".
Definition hmac_rmd160 : gcry_mac_spec_t toy :=
  {| algo := 108; flags_disabled := false; name := "HMAC_RIPEMD160";
     ops := Some toy_ops_badopen |}.
Definition hmac_tiger : gcry_mac_spec_t toy :=
  {| algo := 109; flags_disabled := false; name := "HMAC_TIGER";
     ops := Some toy_ops_partial |}.
Definition hmac_md5 : gcry_mac_spec_t toy :=
  {| algo := 106; flags_disabled := true; name := "HMAC_MD5";
     ops := Some toy_ops |}.
Definition hmac_md4 : gcry_mac_spec_t toy :=
  {| algo := 107; flags_disabled := false; name := "HMAC_MD4";
     ops := None |}.

(** Thirteen descriptors under the names and ids of the HMAC family.  Most
    are plain; a few are deliberately deficient, one per way [mac_open] can
    turn an algorithm away: [hmac_md5] is disabled, [hmac_md4] has no
    capability table, [hmac_tiger] has a partial one, and the [open] of
    [hmac_rmd160] fails. *)
Definition toy_specs : hmac_type_specs toy :=
  {| _gcry_mac_type_spec_hmac_sha1 := hmac_sha1;
     _gcry_mac_type_spec_hmac_sha256 := hmac_sha256;
     _gcry_mac_type_spec_hmac_sha224 := toy_spec 102 "HMAC_SHA224";
     _gcry_mac_type_spec_hmac_sha512 := toy_spec 103 "HMAC_SHA512";
     _gcry_mac_type_spec_hmac_sha384 := toy_spec 104 "HMAC_SHA384";
     _gcry_mac_type_spec_hmac_gost3411_94 := toy_spec 111 "HMAC_GOSTR3411_94";
     _gcry_mac_type_spec_hmac_stribog256 := toy_spec 112 "HMAC_STRIBOG256";
     _gcry_mac_type_spec_hmac_stribog512 := toy_spec 113 "HMAC_STRIBOG512";
     _gcry_mac_type_spec_hmac_whirlpool := toy_spec 110 "HMAC_WHIRLPOOL";
     _gcry_mac_type_spec_hmac_rmd160 := hmac_rmd160;
     _gcry_mac_type_spec_hmac_tiger1 := hmac_tiger;
     _gcry_mac_type_spec_hmac_md5 := hmac_md5;
     _gcry_mac_type_spec_hmac_md4 := hmac_md4 |}.

Definition sample_list : list (gcry_mac_spec_t toy) :=
  mac_list_table all_features toy_specs.

(** A table with no entry at all, and a heap holding one handle bound to
    it at address 7.  No successful open yields such a handle; it shows
    what the dispatch functions do when an entry is missing. *)
Definition toy_ops_empty : gcry_mac_spec_ops_t toy :=
  {| open := None; close := None; setkey := None; setiv := None;
     reset := None; write := None; read := None; verify := None;
     get_maclen := None; get_keylen := None |}.

Definition bare : gcry_mac_spec_t toy :=
  {| algo := 999; flags_disabled := false; name := "BARE";
     ops := Some toy_ops_empty |}.

Definition bare_handle : gcry_mac_handle toy :=
  {| magic := CTX_MAGIC_NORMAL; h_algo := 999; spec := Some bare;
     gcry_ctx := None; u := toy_zero |}.

Definition world_bare : world toy :=
  {| heap := {[ 7%positive := {| blk_pool := NormalPool; blk_data := bare_handle |} ]};
     normal_left := 3; secure_left := 2; errno := 0; trace := [] |}.

Definition world0 : world toy :=
  {| heap := ∅; normal_left := 4; secure_left := 2; errno := 0;
     trace := [] |}.

(** [world0] after [hmac_sha256] was opened without flags: one handle, at
    address 1, in a block of the normal pool. *)
Definition block1 : block toy :=
  {| blk_pool := NormalPool;
     blk_data := {| magic := CTX_MAGIC_NORMAL; h_algo := 101;
                    spec := Some hmac_sha256; gcry_ctx := None;
                    u := toy_zero |} |}.

Definition world1 : world toy :=
  {| heap := {[ 1%positive := block1 ]};
     normal_left := 3; secure_left := 2; errno := 0;
     trace := [EvCalloc NormalPool (Some 1%positive); EvCall OpOpen 1%positive] |}.

(** [world0] after [hmac_sha256] was opened with the SECURE flag. *)
Definition block1s : block toy :=
  {| blk_pool := SecurePool;
     blk_data := {| magic := CTX_MAGIC_SECURE; h_algo := 101;
                    spec := Some hmac_sha256; gcry_ctx := None;
                    u := toy_zero |} |}.

Definition world1s : world toy :=
  {| heap := {[ 1%positive := block1s ]};
     normal_left := 4; secure_left := 1; errno := 0;
     trace := [EvCalloc SecurePool (Some 1%positive); EvCall OpOpen 1%positive] |}.

(** A heap with two handles: the one of [world1] at address 1 and the one
    of [world_bare] at address 7. *)
Definition world_two : world toy :=
  {| heap := <[ 7%positive := {| blk_pool := NormalPool; blk_data := bare_handle |} ]>
               {[ 1%positive := block1 ]};
     normal_left := 2; secure_left := 2; errno := 0;
     trace := [] |}.

(** [world0] with the secure pool exhausted. *)
Definition world_nosecure : world toy :=
  {| heap := ∅; normal_left := 4; secure_left := 0; errno := 0;
     trace := [] |}.

(** A build without the SHA-2 and GOST algorithms. *)
Definition small_build : build_config :=
  {| USE_SHA1 := true; USE_SHA256 := false; USE_SHA512 := false;
     USE_GOST_R_3411_94 := false; USE_GOST_R_3411_12 := false;
     USE_WHIRLPOOL := true; USE_RMD160 := true; USE_TIGER := true;
     USE_MD5 := true; USE_MD4 := true |}.

End Sample.

Local Open Scope mac_scope.

Section Dispatcher.

Context {context : Type}.

(** The all-zero contents of the union [u]: what a zero-initialising
    allocation holds and what wiping leaves behind. *)
Variable zero_context : context.

(** [mac_list]: the descriptors compiled in, in table order, without the
    terminating NULL; for a given build it is [mac_list_table cfg d].  The
    functions below only scan it, so they are stated for any list. *)
Variable mac_list : list (gcry_mac_spec_t context).

Abbreviation spec_t := (gcry_mac_spec_t context).
Abbreviation ops_t := (gcry_mac_spec_ops_t context).
Abbreviation handle := (gcry_mac_handle context).
Abbreviation W := (world context).
Abbreviation M := (M context).

(** *** Registry lookups and information queries *)

Definition spec_from_algo (algo' : Z) : option spec_t :=
  List.find (fun spec => algo' =? algo spec) mac_list.

Definition spec_from_name (name' : string) : option spec_t :=
  List.find (fun spec => stricmp name' (name spec) =? 0) mac_list.

Definition gcry_mac_map_name (string' : option string) : Z :=
  match string' with
  | None => 0
  | Some s =>
      match spec_from_name s with
      | Some spec => algo spec
      | None => 0
      end
  end.

Definition gcry_mac_algo_name (algorithm : Z) : string :=
  match spec_from_algo algorithm with
  | Some spec => name spec
  | None => "?"%string
  end.

Definition check_mac_algo (algorithm : Z) : gcry_err_code_t :=
  match spec_from_algo algorithm with
  | Some spec => if negb (flags_disabled spec) then 0 else GPG_ERR_MAC_ALGO
  | None => GPG_ERR_MAC_ALGO
  end.

Definition gcry_mac_get_algo_maclen (algo' : Z) : N :=
  match spec_from_algo algo' with
  | None => 0%N
  | Some spec =>
      match ops spec with
      | None => 0%N
      | Some o =>
          match get_maclen o with
          | None => 0%N
          | Some f => f algo'
          end
      end
  end.

Definition gcry_mac_get_algo_keylen (algo' : Z) : N :=
  match spec_from_algo algo' with
  | None => 0%N
  | Some spec =>
      match ops spec with
      | None => 0%N
      | Some o =>
          match get_keylen o with
          | None => 0%N
          | Some f => f algo'
          end
      end
  end.

(** [buffer] is only tested for NULL; [nbytes] is the output slot, and the
    second component of the result is what the slot holds afterwards. *)
Definition gcry_mac_algo_info (algo' what : Z) (buffer : option bytes)
    (nbytes : option N) : gcry_error_t * option N :=
  if what =? GCRYCTL_GET_KEYLEN then
    if non_null buffer || negb (non_null nbytes) then
      (gcry_error GPG_ERR_INV_ARG, nbytes)
    else
      let ui := gcry_mac_get_algo_keylen algo' in
      if (0 <? ui)%N then (gcry_error GPG_ERR_NO_ERROR, Some ui)
      else (gcry_error GPG_ERR_MAC_ALGO, nbytes)
  else if what =? GCRYCTL_TEST_ALGO then
    if non_null buffer || non_null nbytes then
      (gcry_error GPG_ERR_INV_ARG, nbytes)
    else (gcry_error (check_mac_algo algo'), nbytes)
  else (gcry_error GPG_ERR_INV_OP, nbytes).

(** *** Collaborators: allocator, wiping, errno *)

Definition zero_handle : handle :=
  {| magic := 0; h_algo := 0; spec := None; gcry_ctx := None;
     u := zero_context |}.

Definition log (e : event) : M unit := fun w =>
  Some (tt, {| heap := heap w; normal_left := normal_left w;
               secure_left := secure_left w; errno := errno w;
               trace := trace w ++ [e] |}).

Definition ENOMEM : Z := 12.

(** Modelled from the spec: the allocator collaborator ([alloc],
    [alloc_secure]; g10lib.h, outside cipher/mac.c).  A pool hands out a
    zero-initialised block at an unused address while it has room; when it
    has none the call yields NULL and sets [errno]. *)
Definition calloc_in (p : pool) : M gcry_mac_hd_t := fun w =>
  let room := match p with
              | NormalPool => normal_left w
              | SecurePool => secure_left w
              end in
  match room with
  | O =>
      Some (None, {| heap := heap w; normal_left := normal_left w;
                     secure_left := secure_left w; errno := ENOMEM;
                     trace := trace w ++ [EvCalloc p None] |})
  | S n =>
      let a := fresh (dom (heap w)) in
      Some (Some a,
            {| heap := <[a := {| blk_pool := p; blk_data := zero_handle |}]> (heap w);
               normal_left := match p with NormalPool => n | SecurePool => normal_left w end;
               secure_left := match p with SecurePool => n | NormalPool => secure_left w end;
               errno := errno w;
               trace := trace w ++ [EvCalloc p (Some a)] |})
  end.

Definition gcry_calloc : M gcry_mac_hd_t := calloc_in NormalPool.
Definition gcry_calloc_secure : M gcry_mac_hd_t := calloc_in SecurePool.

(** Modelled from the spec: the allocator collaborator ([free]).  Releasing
    a block that is not allocated is undefined. *)
Definition gcry_free (hd : gcry_mac_hd_t) : M unit := fun w =>
  match hd with
  | None => None
  | Some a =>
      match heap w !! a with
      | None => None
      | Some b =>
          Some (tt,
                {| heap := delete a (heap w);
                   normal_left := match blk_pool b with
                                  | NormalPool => S (normal_left w)
                                  | SecurePool => normal_left w
                                  end;
                   secure_left := match blk_pool b with
                                  | SecurePool => S (secure_left w)
                                  | NormalPool => secure_left w
                                  end;
                   errno := errno w;
                   trace := trace w ++ [EvFree a] |})
      end
  end.

(** [*hd]: reading through a NULL or dangling handle is undefined. *)
Definition load (hd : gcry_mac_hd_t) : M handle := fun w =>
  match hd with
  | None => None
  | Some a =>
      match heap w !! a with
      | Some b => Some (blk_data b, w)
      | None => None
      end
  end.

(** [*hd = h]. *)
Definition store (hd : gcry_mac_hd_t) (h : handle) : M unit := fun w =>
  match hd with
  | None => None
  | Some a =>
      match heap w !! a with
      | Some b =>
          Some (tt,
                {| heap := <[a := {| blk_pool := blk_pool b; blk_data := h |}]> (heap w);
                   normal_left := normal_left w; secure_left := secure_left w;
                   errno := errno w; trace := trace w |})
      | None => None
      end
  end.

Definition event_at (mk : loc -> event) (hd : gcry_mac_hd_t) : M unit :=
  match hd with
  | Some a => log (mk a)
  | None => undef
  end.

(** Modelled from the spec: the allocator collaborator ([wipe]).
    [wipememory (hd, sizeof *hd)] overwrites every byte of the handle with
    zero. *)
Definition wipememory (hd : gcry_mac_hd_t) : M unit :=
  store hd zero_handle ;;; event_at EvWipe hd.

(** Modelled from the spec: allocator failure is propagated with its
    underlying cause.  [gpg_err_code_from_syserror] (libgpg-error) turns the
    current [errno] into an error code and never yields 0; the only [errno]
    the allocator sets is [ENOMEM]. *)
Definition gpg_err_code_from_syserror : M gcry_err_code_t := fun w =>
  Some (if errno w =? ENOMEM then GPG_ERR_ENOMEM
        else if errno w =? 0 then GPG_ERR_MISSING_ERRNO
        else GPG_ERR_UNKNOWN_ERRNO, w).

(** [hd->spec->ops]. *)
Definition hd_ops (hd : gcry_mac_hd_t) : M ops_t :=
  h <- load hd ;;
  match spec h with
  | None => undef
  | Some s =>
      match ops s with
      | None => undef
      | Some o => ret o
      end
  end.

(** Calling an algorithm entry point on the handle: the callback runs on the
    handle's current contents and leaves new contents of [u] behind. *)
Definition call (o : op_id) (hd : gcry_mac_hd_t)
    (f : mac_view context -> gcry_err_code_t * context) : M gcry_err_code_t :=
  h <- load hd ;;
  event_at (EvCall o) hd ;;;
  let r := f (view h) in
  store hd (set_u h (snd r)) ;;;
  ret (fst r).

Definition call_close (hd : gcry_mac_hd_t)
    (f : mac_view context -> context) : M unit :=
  h <- load hd ;;
  event_at (EvCall OpClose) hd ;;;
  store hd (set_u h (f (view h))).

Definition call_read (hd : gcry_mac_hd_t)
    (f : mac_view context -> bytes -> N -> gcry_err_code_t * context * (bytes * N))
    (outbuf : bytes) (outlen : N) : M (gcry_err_code_t * (option bytes * option N)) :=
  h <- load hd ;;
  event_at (EvCall OpRead) hd ;;;
  let r := f (view h) outbuf outlen in
  store hd (set_u h (snd (fst r))) ;;;
  ret (fst (fst r), (Some (fst (snd r)), Some (snd (snd r)))).

(** *** Handle life cycle *)

(** The second component of the result is what the output slot [*hd] holds
    afterwards; [hd] is what it held before. *)
Definition mac_open (hd : gcry_mac_hd_t) (algo' : Z) (secure : bool)
    (ctx : gcry_ctx_t) : M (gcry_err_code_t * gcry_mac_hd_t) :=
  match spec_from_algo algo' with
  | None => ret (GPG_ERR_MAC_ALGO, hd)
  | Some spec' =>
      if flags_disabled spec' then ret (GPG_ERR_MAC_ALGO, hd)
      else
        match ops spec' with
        | None => ret (GPG_ERR_MAC_ALGO, hd)
        | Some o =>
            if negb (non_null (open o)) || negb (non_null (write o))
               || negb (non_null (setkey o)) || negb (non_null (read o))
               || negb (non_null (verify o)) || negb (non_null (reset o))
            then ret (GPG_ERR_MAC_ALGO, hd)
            else
              h <- (if secure then gcry_calloc_secure else gcry_calloc) ;;
              if negb (non_null h) then
                e <- gpg_err_code_from_syserror ;; ret (e, hd)
              else
                h0 <- load h ;;
                store h {| magic := if secure then CTX_MAGIC_SECURE
                                    else CTX_MAGIC_NORMAL;
                           h_algo := algo';
                           spec := Some spec';
                           gcry_ctx := ctx;
                           u := u h0 |} ;;;
                o' <- hd_ops h ;;
                match open o' with
                | None => undef
                | Some f =>
                    err <- call OpOpen h f ;;
                    if negb (err =? 0) then gcry_free h ;;; ret (err, hd)
                    else ret (err, h)
                end
        end
  end.

Definition mac_reset (hd : gcry_mac_hd_t) : M gcry_error_t :=
  o <- hd_ops hd ;;
  match reset o with
  | Some f => call OpReset hd f
  | None => ret 0
  end.

Definition mac_close (hd : gcry_mac_hd_t) : M unit :=
  o <- hd_ops hd ;;
  match close o with
  | Some f => call_close hd f
  | None => ret tt
  end ;;;
  wipememory hd ;;;
  gcry_free hd.

(** *** Dispatch *)

Definition mac_setkey (hd : gcry_mac_hd_t) (key : option bytes) (keylen : N)
    : M gcry_error_t :=
  o <- hd_ops hd ;;
  match setkey o with
  | None => ret GPG_ERR_INV_ARG
  | Some f =>
      if (0 <? keylen)%N && negb (non_null key) then ret GPG_ERR_INV_ARG
      else call OpSetkey hd (fun v => f v key keylen)
  end.

Definition mac_setiv (hd : gcry_mac_hd_t) (iv : option bytes) (ivlen : N)
    : M gcry_error_t :=
  o <- hd_ops hd ;;
  match setiv o with
  | None => ret GPG_ERR_INV_ARG
  | Some f =>
      if (0 <? ivlen)%N && negb (non_null iv) then ret GPG_ERR_INV_ARG
      else call OpSetiv hd (fun v => f v iv ivlen)
  end.

Definition mac_write (hd : gcry_mac_hd_t) (inbuf : option bytes) (inlen : N)
    : M gcry_error_t :=
  o <- hd_ops hd ;;
  match write o with
  | None => ret GPG_ERR_INV_ARG
  | Some f =>
      if (0 <? inlen)%N && negb (non_null inbuf) then ret GPG_ERR_INV_ARG
      else call OpWrite hd (fun v => f v inbuf inlen)
  end.

(** [outlen] is the slot [*outlen] ([None] for a NULL pointer); the result
    carries what [outbuf] and [*outlen] hold afterwards. *)
Definition mac_read (hd : gcry_mac_hd_t) (outbuf : option bytes)
    (outlen : option N) : M (gcry_error_t * (option bytes * option N)) :=
  match outbuf, outlen with
  | Some buf, Some len =>
      if (len =? 0)%N then ret (GPG_ERR_INV_ARG, (outbuf, outlen))
      else
        o <- hd_ops hd ;;
        match read o with
        | None => ret (GPG_ERR_INV_ARG, (outbuf, outlen))
        | Some f => call_read hd f buf len
        end
  | _, _ => ret (GPG_ERR_INV_ARG, (outbuf, outlen))
  end.

Definition mac_verify (hd : gcry_mac_hd_t) (buf : option bytes) (buflen : N)
    : M gcry_error_t :=
  match buf with
  | None => ret GPG_ERR_INV_ARG
  | Some b =>
      if (buflen =? 0)%N then ret GPG_ERR_INV_ARG
      else
        o <- hd_ops hd ;;
        match verify o with
        | None => ret GPG_ERR_INV_ARG
        | Some f => call OpVerify hd (fun v => f v b buflen)
        end
  end.

(** *** Public entry points *)

(** The result is the returned error value and what the output slot [*h]
    holds afterwards. *)
Definition gcry_mac_open (algo' : Z) (flags : Z) (ctx : gcry_ctx_t)
    : M (gcry_error_t * gcry_mac_hd_t) :=
  r <- (if negb (Z.land flags (Z.lnot GCRY_MAC_FLAG_SECURE) =? 0)
        then ret (GPG_ERR_INV_ARG, None)
        else mac_open None algo'
               (negb (Z.land flags GCRY_MAC_FLAG_SECURE =? 0)) ctx) ;;
  ret (gpg_error (fst r), if negb (fst r =? 0) then None else snd r).

Definition gcry_mac_close (hd : gcry_mac_hd_t) : M unit :=
  mac_close hd.

Definition gcry_mac_setkey (hd : gcry_mac_hd_t) (key : option bytes)
    (keylen : N) : M gcry_error_t :=
  err <- mac_setkey hd key keylen ;; ret (gpg_error err).

Definition gcry_mac_setiv (hd : gcry_mac_hd_t) (iv : option bytes)
    (ivlen : N) : M gcry_error_t :=
  err <- mac_setiv hd iv ivlen ;; ret (gpg_error err).

Definition gcry_mac_write (hd : gcry_mac_hd_t) (inbuf : option bytes)
    (inlen : N) : M gcry_error_t :=
  err <- mac_write hd inbuf inlen ;; ret (gpg_error err).

Definition gcry_mac_read (hd : gcry_mac_hd_t) (outbuf : option bytes)
    (outlen : option N) : M (gcry_error_t * (option bytes * option N)) :=
  r <- mac_read hd outbuf outlen ;; ret (gpg_error (fst r), snd r).

Definition gcry_mac_verify (hd : gcry_mac_hd_t) (buf : option bytes)
    (buflen : N) : M gcry_error_t :=
  err <- mac_verify hd buf buflen ;; ret (gpg_error err).

Definition gcry_mac_ctl (hd : gcry_mac_hd_t) (cmd : Z) (buffer : option bytes)
    (buflen : N) : M gcry_error_t :=
  rc <- (if cmd =? GCRYCTL_RESET then mac_reset hd
         else ret GPG_ERR_INV_OP) ;;
  ret (gcry_error rc).

(** *** Sequences of calls

    A caller's use of the library over time: any interleaving of the public
    entry points on any handles. *)

Inductive request :=
| ReqOpen (algo' flags : Z) (ctx : gcry_ctx_t)
| ReqClose (hd : gcry_mac_hd_t)
| ReqSetkey (hd : gcry_mac_hd_t) (key : option bytes) (keylen : N)
| ReqSetiv (hd : gcry_mac_hd_t) (iv : option bytes) (ivlen : N)
| ReqWrite (hd : gcry_mac_hd_t) (inbuf : option bytes) (inlen : N)
| ReqRead (hd : gcry_mac_hd_t) (outbuf : option bytes) (outlen : option N)
| ReqVerify (hd : gcry_mac_hd_t) (buf : option bytes) (buflen : N)
| ReqCtl (hd : gcry_mac_hd_t) (cmd : Z) (buffer : option bytes) (buflen : N).

Definition perform (r : request) : M unit :=
  match r with
  | ReqOpen a f c => gcry_mac_open a f c ;;; ret tt
  | ReqClose hd => gcry_mac_close hd
  | ReqSetkey hd k n => gcry_mac_setkey hd k n ;;; ret tt
  | ReqSetiv hd k n => gcry_mac_setiv hd k n ;;; ret tt
  | ReqWrite hd k n => gcry_mac_write hd k n ;;; ret tt
  | ReqRead hd b n => gcry_mac_read hd b n ;;; ret tt
  | ReqVerify hd b n => gcry_mac_verify hd b n ;;; ret tt
  | ReqCtl hd c b n => gcry_mac_ctl hd c b n ;;; ret tt
  end.

Fixpoint run (rs : list request) : M unit :=
  match rs with
  | [] => ret tt
  | r :: rs' => perform r ;;; run rs'
  end.

(** [closes a r]: the request releases the handle at [a]. *)
Definition closes (a : loc) (r : request) : bool :=
  match r with
  | ReqClose (Some a') => Pos.eqb a a'
  | _ => false
  end.

(** *** Predicates used in the statements *)

(** The handle [hd] is live in [w] and bound to a descriptor with
    capability table [o]. *)
Definition bound_to (w : W) (hd : gcry_mac_hd_t) (o : ops_t) : Prop :=
  hd_ops hd w = Some (o, w).

(** The six operations [mac_open] insists on. *)
Definition mandatory (o : ops_t) : bool :=
  non_null (open o) && non_null (write o) && non_null (setkey o)
  && non_null (read o) && non_null (verify o) && non_null (reset o).

(** The world right after the callback for [o] ran on the block [b] at [a]
    and left [c] in [u]. *)
Definition called (o : op_id) (a : loc) (b : block context) (c : context)
    (w : W) : W :=
  {| heap := <[a := {| blk_pool := blk_pool b;
                       blk_data := set_u (blk_data b) c |}]> (heap w);
     normal_left := normal_left w; secure_left := secure_left w;
     errno := errno w; trace := trace w ++ [EvCall o a] |}.

Definition pool_of (secure : bool) : pool :=
  if secure then SecurePool else NormalPool.

Definition room (p : pool) (w : W) : nat :=
  match p with
  | NormalPool => normal_left w
  | SecurePool => secure_left w
  end.

(** The handle as [mac_open] stamps it before calling the algorithm's
    [open]: the four fields set, [u] still zero from the allocation. *)
Definition stamped (s : spec_t) (algo' : Z) (secure : bool) (ctx : gcry_ctx_t)
    : handle :=
  {| magic := if secure then CTX_MAGIC_SECURE else CTX_MAGIC_NORMAL;
     h_algo := algo'; spec := Some s; gcry_ctx := ctx; u := zero_context |}.

(** The world after a pool with room handed out a zeroed block. *)
Definition allocated (p : pool) (w : W) : W :=
  let a := fresh (dom (heap w)) in
  {| heap := <[a := {| blk_pool := p; blk_data := zero_handle |}]> (heap w);
     normal_left := match p with
                    | NormalPool => pred (normal_left w)
                    | SecurePool => normal_left w
                    end;
     secure_left := match p with
                    | SecurePool => pred (secure_left w)
                    | NormalPool => secure_left w
                    end;
     errno := errno w;
     trace := trace w ++ [EvCalloc p (Some a)] |}.

(** The world after a successful open that placed handle [h] at the fresh
    address, taken from pool [p]. *)
Definition opened (p : pool) (h : handle) (w : W) : W :=
  let a := fresh (dom (heap w)) in
  {| heap := <[a := {| blk_pool := p; blk_data := h |}]> (heap w);
     normal_left := match p with
                    | NormalPool => pred (normal_left w)
                    | SecurePool => normal_left w
                    end;
     secure_left := match p with
                    | SecurePool => pred (secure_left w)
                    | NormalPool => secure_left w
                    end;
     errno := errno w;
     trace := trace w ++ [EvCalloc p (Some a); EvCall OpOpen a] |}.

(** The world after an open whose algorithm callback failed: the block was
    allocated, the callback ran, the block was released. *)
Definition open_undone (p : pool) (w : W) : W :=
  let a := fresh (dom (heap w)) in
  {| heap := heap w; normal_left := normal_left w;
     secure_left := secure_left w; errno := errno w;
     trace := trace w ++ [EvCalloc p (Some a); EvCall OpOpen a; EvFree a] |}.

(** The world after an open that found its pool exhausted. *)
Definition open_nomem (p : pool) (w : W) : W :=
  {| heap := heap w; normal_left := normal_left w;
     secure_left := secure_left w; errno := ENOMEM;
     trace := trace w ++ [EvCalloc p None] |}.

(** The two blocks carry the same binding: pool, tag, algorithm id,
    descriptor and associated context. *)
Definition same_binding (b b' : block context) : Prop :=
  blk_pool b' = blk_pool b /\
  magic (blk_data b') = magic (blk_data b) /\
  h_algo (blk_data b') = h_algo (blk_data b) /\
  spec (blk_data b') = spec (blk_data b) /\
  gcry_ctx (blk_data b') = gcry_ctx (blk_data b).

(** Whatever is allocated at [a] in [w] is still allocated there in [w'],
    with the same binding. *)
Definition keeps (a : loc) (w w' : W) : Prop :=
  forall b, heap w !! a = Some b ->
            exists b', heap w' !! a = Some b' /\ same_binding b b'.

(** [w'] is [w], or [w] after one algorithm callback ran on a live handle. *)
Definition touched (w w' : W) : Prop :=
  w' = w \/
  exists op a b c, heap w !! a = Some b /\ w' = called op a b c w.

(** On the handle at [a], with contents [b] and capability table [o], the
    five mandatory dispatch paths reach the algorithm: each call with
    arguments that pass the generic validation returns what the algorithm's
    entry point returns and leaves what it leaves. *)
Definition forwards (w : W) (a : loc) (b : block context) (o : ops_t) : Prop :=
  (exists f, setkey o = Some f /\
     forall key keylen, keylen = 0%N \/ is_Some key ->
       gcry_mac_setkey (Some a) key keylen w
       = Some (gpg_error (fst (f (view (blk_data b)) key keylen)),
               called OpSetkey a b (snd (f (view (blk_data b)) key keylen)) w)) /\
  (exists f, write o = Some f /\
     forall inbuf inlen, inlen = 0%N \/ is_Some inbuf ->
       gcry_mac_write (Some a) inbuf inlen w
       = Some (gpg_error (fst (f (view (blk_data b)) inbuf inlen)),
               called OpWrite a b (snd (f (view (blk_data b)) inbuf inlen)) w)) /\
  (exists f, read o = Some f /\
     forall outbuf outlen, outlen <> 0%N ->
       gcry_mac_read (Some a) (Some outbuf) (Some outlen) w
       = let r := f (view (blk_data b)) outbuf outlen in
         Some ((gpg_error (fst (fst r)),
                (Some (fst (snd r)), Some (snd (snd r)))),
               called OpRead a b (snd (fst r)) w)) /\
  (exists f, verify o = Some f /\
     forall buf buflen, buflen <> 0%N ->
       gcry_mac_verify (Some a) (Some buf) buflen w
       = Some (gpg_error (fst (f (view (blk_data b)) buf buflen)),
               called OpVerify a b (snd (f (view (blk_data b)) buf buflen)) w)) /\
  (exists f, reset o = Some f /\
     forall buffer buflen,
       gcry_mac_ctl (Some a) GCRYCTL_RESET buffer buflen w
       = Some (gcry_error (fst (f (view (blk_data b)))),
               called OpReset a b (snd (f (view (blk_data b)))) w)).

(** The reasons for which [mac_open] turns an algorithm id away. *)
Definition not_openable (algo' : Z) : Prop :=
  spec_from_algo algo' = None \/
  exists s, spec_from_algo algo' = Some s /\
    (flags_disabled s = true \/ ops s = None \/
     exists o, ops s = Some o /\
       (open o = None \/ write o = None \/ setkey o = None \/
        read o = None \/ verify o = None \/ reset o = None)).

(** No two entries of the registry have names that are equal up to case. *)
Definition names_distinct : Prop :=
  forall i j s t,
    mac_list !! i = Some s -> mac_list !! j = Some t ->
    stricmp (name s) (name t) = 0 -> i = j.

(** Algorithm id 0 is not used, and every name is a non-empty C string. *)
Definition registry_wf : Prop :=
  Forall (fun s => algo s <> 0 /\ name s <> ""%string /\ cstring (name s) = true)
         mac_list.

(** No two entries of the registry have the same algorithm id. *)
Definition ids_distinct : Prop := NoDup (map algo mac_list).


(** The requests that go through the dispatch functions: everything but
    open and close. *)
Definition is_dispatch (r : request) : bool :=
  match r with
  | ReqOpen _ _ _ | ReqClose _ => false
  | _ => true
  end.

(** The handle a request is about. *)
Definition target (r : request) : gcry_mac_hd_t :=
  match r with
  | ReqOpen _ _ _ => None
  | ReqClose hd => hd
  | ReqSetkey hd _ _ => hd
  | ReqSetiv hd _ _ => hd
  | ReqWrite hd _ _ => hd
  | ReqRead hd _ _ => hd
  | ReqVerify hd _ _ => hd
  | ReqCtl hd _ _ _ => hd
  end.

(** [w'] is [w], or [w] after one algorithm callback ran on the live handle
    [hd]. *)
Definition touched_at (hd : gcry_mac_hd_t) (w w' : W) : Prop :=
  w' = w \/
  exists op a b c, hd = Some a /\ heap w !! a = Some b /\
                   w' = called op a b c w.

(** The call on [hd] with data [p] of length [n] reached the entry [entry]
    of the handle's capability table, which returned 0 and left [w']. *)
Definition ran_ok (op : op_id)
    (entry : ops_t ->
             option (mac_view context -> option bytes -> N ->
                     gcry_err_code_t * context))
    (hd : gcry_mac_hd_t) (p : option bytes) (n : N) (w w' : W) : Prop :=
  exists a b o f,
    hd = Some a /\ heap w !! a = Some b /\ bound_to w hd o /\
    entry o = Some f /\
    (n = 0%N \/ is_Some p) /\
    fst (f (view (blk_data b)) p n) = 0 /\
    w' = called op a b (snd (f (view (blk_data b)) p n)) w.

(** ** Properties *)

(** *** Error values *)

Lemma gpg_error_zero_iff (code : gcry_err_code_t) :
  gpg_error code = 0 <-> code = 0.
Proof.
  unfold gpg_error, gpg_err_make, GPG_ERR_NO_ERROR.
  destruct (Z.eqb_spec code 0) as [->|Hne]; [tauto|].
  split; [|contradiction].
  intros H. apply Z.lor_eq_0_iff in H as [H _].
  vm_compute in H. discriminate.
Qed.

Lemma gpg_err_code_gpg_error (code : gcry_err_code_t) :
  gpg_err_code (gpg_error code) = Z.land code GPG_ERR_CODE_MASK.
Proof.
  unfold gpg_err_code, gpg_error, gpg_err_make, GPG_ERR_NO_ERROR.
  destruct (Z.eqb_spec code 0) as [->|Hne]; [reflexivity|].
  rewrite Z.land_lor_distr_l, <- Z.land_assoc, Z.land_diag.
  change (Z.land (Z.shiftl (Z.land GPG_ERR_SOURCE_DEFAULT GPG_ERR_SOURCE_MASK)
                           GPG_ERR_SOURCE_SHIFT) GPG_ERR_CODE_MASK) with 0.
  reflexivity.
Qed.

(** *** Registry scans *)

Lemma find_first {A} (p : A -> bool) (l : list A) (x : A) :
  List.find p l = Some x ->
  exists i, l !! i = Some x /\ p x = true /\
            forall j y, (j < i)%nat -> l !! j = Some y -> p y = false.
Proof.
  induction l as [|y l IH]; simpl; [discriminate|].
  destruct (p y) eqn:Hy.
  - intros [= ->]. exists O. repeat split; auto. intros j z Hj. lia.
  - intros H. destruct (IH H) as (i & Hi & Hp & Hlt).
    exists (S i). repeat split; auto.
    intros [|j] z Hj Hz; simpl in Hz.
    + congruence.
    + apply (Hlt j); [lia|exact Hz].
Qed.

Lemma find_hit {A} (p : A -> bool) (l : list A) (y : A) :
  In y l -> p y = true -> exists x, List.find p l = Some x.
Proof.
  intros Hin Hp. destruct (List.find p l) as [x|] eqn:E; [eauto|].
  rewrite (List.find_none p l E y Hin) in Hp. discriminate.
Qed.

Lemma lookup_In {A} (l : list A) (i : nat) (x : A) :
  l !! i = Some x -> In x l.
Proof.
  intros H. apply list_elem_of_In, list_elem_of_lookup. eauto.
Qed.

Lemma stricmp_refl (a : string) : stricmp a a = 0.
Proof.
  induction a as [|c a IH]; simpl; [reflexivity|].
  rewrite Z.eqb_refl. exact IH.
Qed.

Lemma tolower_nonzero (c : ascii) :
  c <> Ascii.zero -> nat_of_ascii (tolower c) <> O.
Proof.
  intros Hc. unfold tolower.
  destruct ((65 <=? nat_of_ascii c)%nat && (nat_of_ascii c <=? 90)%nat) eqn:E.
  - apply andb_true_iff in E as [E1 E2].
    apply Nat.leb_le in E1. apply Nat.leb_le in E2.
    rewrite nat_ascii_embedding; lia.
  - intros H. apply Hc.
    rewrite <- (ascii_nat_embedding c), H. reflexivity.
Qed.

Lemma stricmp_empty_l (b : string) :
  b <> ""%string -> cstring b = true -> stricmp "" b <> 0.
Proof.
  destruct b as [|d b]; [congruence|]. intros _ Hc. simpl.
  unfold cstring in Hc. simpl in Hc. apply andb_true_iff in Hc as [Hd _].
  apply negb_true_iff, Ascii.eqb_neq in Hd.
  pose proof (tolower_nonzero d Hd). lia.
Qed.

Lemma spec_from_algo_Some (id : Z) (s : spec_t) :
  spec_from_algo id = Some s -> In s mac_list /\ algo s = id.
Proof.
  intros H. apply List.find_some in H as [Hin He].
  apply Z.eqb_eq in He. auto.
Qed.

Lemma spec_from_algo_None (id : Z) :
  spec_from_algo id = None <-> forall s, In s mac_list -> algo s <> id.
Proof.
  split.
  - intros H s Hin He. pose proof (List.find_none _ _ H s Hin) as Hf.
    simpl in Hf. apply Z.eqb_neq in Hf. congruence.
  - intros H. destruct (spec_from_algo id) as [s|] eqn:E; [|reflexivity].
    apply spec_from_algo_Some in E as [Hin He]. destruct (H s Hin He).
Qed.

Lemma spec_from_name_Some (n : string) (s : spec_t) :
  spec_from_name n = Some s -> In s mac_list /\ stricmp n (name s) = 0.
Proof.
  intros H. apply List.find_some in H as [Hin He].
  apply Z.eqb_eq in He. auto.
Qed.

Lemma spec_from_name_None (n : string) :
  spec_from_name n = None <->
  forall s, In s mac_list -> stricmp n (name s) <> 0.
Proof.
  split.
  - intros H s Hin He. pose proof (List.find_none _ _ H s Hin) as Hf.
    simpl in Hf. apply Z.eqb_neq in Hf. congruence.
  - intros H. destruct (spec_from_name n) as [s|] eqn:E; [|reflexivity].
    apply spec_from_name_Some in E as [Hin He]. destruct (H s Hin He).
Qed.

(** *** Names and ids *)

(** The name of a registered id maps back to that id when names are
    distinct up to case. *)
Lemma map_name_algo_name (id : Z) :
  names_distinct ->
  (exists s, In s mac_list /\ algo s = id) ->
  gcry_mac_map_name (Some (gcry_mac_algo_name id)) = id.
Proof.
  intros Hd (s0 & Hin0 & Hid0).
  destruct (spec_from_algo id) as [s|] eqn:Es.
  2:{ rewrite spec_from_algo_None in Es. destruct (Es s0 Hin0 Hid0). }
  unfold gcry_mac_algo_name. rewrite Es.
  destruct (find_first _ _ _ Es) as (i & Hi & Hpi & _).
  destruct (find_hit (fun spec => stricmp (name s) (name spec) =? 0)
              mac_list s) as [t Et].
  { eapply lookup_In; eauto. }
  { simpl. rewrite stricmp_refl. reflexivity. }
  destruct (find_first _ _ _ Et) as (j & Hj & Hpj & _).
  simpl in Hpj. apply Z.eqb_eq in Hpj.
  assert (i = j) by (eapply Hd; eauto). subst j.
  assert (t = s) by congruence. subst t.
  unfold gcry_mac_map_name, spec_from_name. rewrite Et.
  apply Z.eqb_eq in Hpi. congruence.
Qed.

(** C4: for every registered algorithm id, taking the name of the id,
    mapping that name back to an id through the case-insensitive lookup and
    taking the name again gives the name one started from, provided no two
    registered descriptors have names that are equal up to case. *)
Theorem algo_name_round_trip (id : Z) :
  names_distinct ->
  (exists s, In s mac_list /\ algo s = id) ->
  gcry_mac_algo_name
    (gcry_mac_map_name (Some (gcry_mac_algo_name id)))
  = gcry_mac_algo_name id.
Proof.
  intros Hd Hreg. rewrite map_name_algo_name by assumption. reflexivity.
Qed.

(** C6: [gcry_mac_algo_name] is a total function into strings: a registered
    id yields the name of a descriptor with that id, id 0 and every
    unregistered id yield the placeholder "?", and the result is never
    empty; [gcry_mac_map_name] yields 0 for NULL, for the empty string and
    for a name no descriptor carries, and otherwise the non-zero id of a
    descriptor carrying the name.  The registry is one whose ids are
    non-zero and whose names are non-empty C strings. *)
Theorem algo_name_map_name_contract :
  registry_wf ->
  (forall id, (exists s, In s mac_list /\ algo s = id) ->
     exists s, In s mac_list /\ algo s = id /\
               spec_from_algo id = Some s /\
               gcry_mac_algo_name id = name s) /\
  (forall id, (forall s, In s mac_list -> algo s <> id) ->
     gcry_mac_algo_name id = "?"%string) /\
  gcry_mac_algo_name 0 = "?"%string /\
  (forall id, gcry_mac_algo_name id <> ""%string) /\
  gcry_mac_map_name None = 0 /\
  gcry_mac_map_name (Some ""%string) = 0 /\
  (forall n, (forall s, In s mac_list -> stricmp n (name s) <> 0) ->
     gcry_mac_map_name (Some n) = 0) /\
  (forall n, (exists s, In s mac_list /\ stricmp n (name s) = 0) ->
     exists s, In s mac_list /\ stricmp n (name s) = 0 /\
               gcry_mac_map_name (Some n) = algo s /\ algo s <> 0).
Proof.
  intros Hwf. unfold registry_wf in Hwf. rewrite Forall_forall in Hwf.
  assert (Hunreg : forall id, (forall s, In s mac_list -> algo s <> id) ->
                              gcry_mac_algo_name id = "?"%string).
  { intros id H. apply spec_from_algo_None in H.
    unfold gcry_mac_algo_name. rewrite H. reflexivity. }
  assert (Hunknown : forall n,
             (forall s, In s mac_list -> stricmp n (name s) <> 0) ->
             gcry_mac_map_name (Some n) = 0).
  { intros n H. apply spec_from_name_None in H.
    unfold gcry_mac_map_name. rewrite H. reflexivity. }
  repeat split.
  - intros id (s0 & Hin0 & Hid0).
    destruct (spec_from_algo id) as [s|] eqn:Es.
    + destruct (spec_from_algo_Some _ _ Es) as [Hin Hid].
      exists s. unfold gcry_mac_algo_name. rewrite Es. auto.
    + rewrite spec_from_algo_None in Es. destruct (Es s0 Hin0 Hid0).
  - exact Hunreg.
  - apply Hunreg. intros s Hin. apply Hwf, list_elem_of_In, Hin.
  - intros id. unfold gcry_mac_algo_name.
    destruct (spec_from_algo id) as [s|] eqn:Es; [|discriminate].
    apply spec_from_algo_Some in Es as [Hin _].
    apply Hwf, list_elem_of_In, Hin.
  - apply Hunknown. intros s Hin.
    destruct (Hwf s) as (_ & Hne & Hc); [apply list_elem_of_In, Hin|].
    apply stricmp_empty_l; assumption.
  - exact Hunknown.
  - intros n (s0 & Hin0 & Hs0).
    destruct (spec_from_name n) as [s|] eqn:Es.
    + destruct (spec_from_name_Some _ _ Es) as [Hin Hs].
      exists s. unfold gcry_mac_map_name. rewrite Es.
      repeat split; auto. apply Hwf, list_elem_of_In, Hin.
    + rewrite spec_from_name_None in Es. destruct (Es s0 Hin0 Hs0).
Qed.

(** *** Availability and key length queries *)

(** C2 (as amended): the availability test succeeds exactly when the id
    resolves to a registered descriptor that is not disabled; the
    capability table plays no part.  In every other case the result is
    [GPG_ERR_MAC_ALGO], and the TEST_ALGO query with no extra argument
    returns the outcome of the test. *)
Theorem check_mac_algo_enabled (algorithm : Z) :
  (check_mac_algo algorithm = 0 <->
   exists s, spec_from_algo algorithm = Some s /\ flags_disabled s = false) /\
  (check_mac_algo algorithm = 0 \/ check_mac_algo algorithm = GPG_ERR_MAC_ALGO) /\
  gcry_mac_algo_info algorithm GCRYCTL_TEST_ALGO None None
  = (gcry_error (check_mac_algo algorithm), None).
Proof.
  unfold check_mac_algo.
  destruct (spec_from_algo algorithm) as [s|] eqn:Es.
  - destruct (flags_disabled s) eqn:Ed; simpl.
    + repeat split; auto.
      * discriminate.
      * intros (s' & [= <-] & H). congruence.
      * unfold gcry_mac_algo_info, check_mac_algo. rewrite Es, Ed. reflexivity.
    + repeat split; eauto.
      unfold gcry_mac_algo_info, check_mac_algo. rewrite Es, Ed. reflexivity.
  - repeat split; auto.
    + discriminate.
    + intros (s' & [=] & _).
    + unfold gcry_mac_algo_info, check_mac_algo. rewrite Es. reflexivity.
Qed.

(** C8: the length queries yield 0 for an unknown id, an absent capability
    table or an absent accessor, and otherwise what the descriptor's
    accessor yields; the GET_KEYLEN query, called with no buffer and an
    output slot, stores a non-zero key length in the slot and succeeds, and
    fails with [GPG_ERR_MAC_ALGO] leaving the slot alone when the key
    length is 0 (with a buffer or without a slot it fails with
    [GPG_ERR_INV_ARG]); every query other than GET_KEYLEN and TEST_ALGO
    fails with [GPG_ERR_INV_OP]. *)
Theorem algo_keylen_queries (algo' : Z) :
  (spec_from_algo algo' = None ->
     gcry_mac_get_algo_keylen algo' = 0%N /\
     gcry_mac_get_algo_maclen algo' = 0%N) /\
  (forall s, spec_from_algo algo' = Some s -> ops s = None ->
     gcry_mac_get_algo_keylen algo' = 0%N /\
     gcry_mac_get_algo_maclen algo' = 0%N) /\
  (forall s o, spec_from_algo algo' = Some s -> ops s = Some o ->
     gcry_mac_get_algo_keylen algo'
     = match get_keylen o with Some f => f algo' | None => 0%N end /\
     gcry_mac_get_algo_maclen algo'
     = match get_maclen o with Some f => f algo' | None => 0%N end) /\
  (forall slot,
     gcry_mac_get_algo_keylen algo' <> 0%N ->
     gcry_mac_algo_info algo' GCRYCTL_GET_KEYLEN None (Some slot)
     = (0, Some (gcry_mac_get_algo_keylen algo'))) /\
  (forall slot,
     gcry_mac_get_algo_keylen algo' = 0%N ->
     gcry_mac_algo_info algo' GCRYCTL_GET_KEYLEN None (Some slot)
     = (gcry_error GPG_ERR_MAC_ALGO, Some slot)) /\
  (forall buffer nbytes,
     non_null buffer = true \/ nbytes = None ->
     gcry_mac_algo_info algo' GCRYCTL_GET_KEYLEN buffer nbytes
     = (gcry_error GPG_ERR_INV_ARG, nbytes)) /\
  (forall what buffer nbytes,
     what <> GCRYCTL_GET_KEYLEN -> what <> GCRYCTL_TEST_ALGO ->
     gcry_mac_algo_info algo' what buffer nbytes
     = (gcry_error GPG_ERR_INV_OP, nbytes)).
Proof.
  split; [|split; [|split; [|split; [|split; [|split]]]]].
  - intros Hs. unfold gcry_mac_get_algo_keylen, gcry_mac_get_algo_maclen.
    rewrite Hs. split; reflexivity.
  - intros s Hs Ho. unfold gcry_mac_get_algo_keylen, gcry_mac_get_algo_maclen.
    rewrite Hs, Ho. split; reflexivity.
  - intros s o Hs Ho. unfold gcry_mac_get_algo_keylen, gcry_mac_get_algo_maclen.
    rewrite Hs, Ho. split; reflexivity.
  - intros slot Hk. unfold gcry_mac_algo_info. simpl.
    destruct (N.ltb_spec 0 (gcry_mac_get_algo_keylen algo')); [reflexivity|lia].
  - intros slot Hk. unfold gcry_mac_algo_info. simpl.
    rewrite Hk. reflexivity.
  - intros buffer nbytes H. unfold gcry_mac_algo_info. simpl.
    destruct H as [H| ->].
    + rewrite H. reflexivity.
    + rewrite orb_true_r. reflexivity.
  - intros what buffer nbytes H1 H2. unfold gcry_mac_algo_info.
    apply Z.eqb_neq in H1. apply Z.eqb_neq in H2. rewrite H1, H2. reflexivity.
Qed.

(** *** The monad and the heap primitives *)

Lemma bind_Some {A B} (m : M A) (k : A -> M B) (w w' : W) (x : A) :
  m w = Some (x, w') -> bind m k w = k x w'.
Proof. unfold bind. intros ->. reflexivity. Qed.

Lemma bound_to_inv (w : W) (hd : gcry_mac_hd_t) (o : ops_t) :
  bound_to w hd o ->
  exists a b s, hd = Some a /\ heap w !! a = Some b /\
                spec (blk_data b) = Some s /\ ops s = Some o.
Proof.
  unfold bound_to, hd_ops, bind, load, undef, ret.
  destruct hd as [a|]; [|discriminate].
  destruct (heap w !! a) as [b|] eqn:E; [|discriminate].
  destruct (spec (blk_data b)) as [s|] eqn:Es; [|discriminate].
  destruct (ops s) as [o'|] eqn:Eo; [|discriminate].
  intros [= ->]. eauto 10.
Qed.

Lemma bound_to_intro (w : W) (a : loc) (b : block context) (s : spec_t)
    (o : ops_t) :
  heap w !! a = Some b -> spec (blk_data b) = Some s -> ops s = Some o ->
  bound_to w (Some a) o.
Proof.
  intros Hl Hs Ho. unfold bound_to, hd_ops, bind, load, ret.
  rewrite Hl, Hs, Ho. reflexivity.
Qed.

Lemma call_eq (o : op_id) (a : loc) (b : block context)
    (f : mac_view context -> gcry_err_code_t * context) (w : W) :
  heap w !! a = Some b ->
  call o (Some a) f w
  = Some (fst (f (view (blk_data b))),
          called o a b (snd (f (view (blk_data b)))) w).
Proof.
  intros Hl. unfold call, bind, load, event_at, log, store, ret, called.
  rewrite Hl. simpl. rewrite Hl. reflexivity.
Qed.

Lemma call_close_eq (a : loc) (b : block context)
    (f : mac_view context -> context) (w : W) :
  heap w !! a = Some b ->
  call_close (Some a) f w
  = Some (tt, called OpClose a b (f (view (blk_data b))) w).
Proof.
  intros Hl. unfold call_close, bind, load, event_at, log, store, ret, called.
  rewrite Hl. simpl. rewrite Hl. reflexivity.
Qed.

Lemma call_read_eq (a : loc) (b : block context)
    (f : mac_view context -> bytes -> N -> gcry_err_code_t * context * (bytes * N))
    (outbuf : bytes) (outlen : N) (w : W) :
  heap w !! a = Some b ->
  call_read (Some a) f outbuf outlen w
  = let r := f (view (blk_data b)) outbuf outlen in
    Some ((fst (fst r), (Some (fst (snd r)), Some (snd (snd r)))),
          called OpRead a b (snd (fst r)) w).
Proof.
  intros Hl. unfold call_read, bind, load, event_at, log, store, ret, called.
  rewrite Hl. simpl. rewrite Hl. reflexivity.
Qed.

(** A callback that leaves [u] as it found it leaves the heap as it was. *)
Lemma called_same_u (o : op_id) (a : loc) (b : block context) (w : W) :
  heap w !! a = Some b ->
  heap (called o a b (u (blk_data b)) w) = heap w.
Proof.
  intros Hl. unfold called. simpl. apply insert_id.
  rewrite Hl. destruct b as [p [m al sp gc c]]. reflexivity.
Qed.

(** *** Dispatch: missing capabilities *)

(** C1 (as amended): on a live handle whose descriptor's capability table
    lacks the operation, each of setkey, setiv, write, read and verify
    returns the InvalidArgument kind ([GPG_ERR_INV_ARG], the same code as
    for a bad argument), whatever the arguments, and the world, the
    handle included, is exactly as before: nothing is invoked. *)
Theorem missing_capability_inv_arg (w : W) (hd : gcry_mac_hd_t) (o : ops_t) :
  bound_to w hd o ->
  (setkey o = None -> forall key keylen,
     gcry_mac_setkey hd key keylen w = Some (gpg_error GPG_ERR_INV_ARG, w)) /\
  (setiv o = None -> forall iv ivlen,
     gcry_mac_setiv hd iv ivlen w = Some (gpg_error GPG_ERR_INV_ARG, w)) /\
  (write o = None -> forall inbuf inlen,
     gcry_mac_write hd inbuf inlen w = Some (gpg_error GPG_ERR_INV_ARG, w)) /\
  (read o = None -> forall outbuf outlen,
     gcry_mac_read hd outbuf outlen w
     = Some ((gpg_error GPG_ERR_INV_ARG, (outbuf, outlen)), w)) /\
  (verify o = None -> forall buf buflen,
     gcry_mac_verify hd buf buflen w = Some (gpg_error GPG_ERR_INV_ARG, w)) /\
  gpg_err_code (gpg_error GPG_ERR_INV_ARG) = GPG_ERR_INV_ARG.
Proof.
  intros Hb. unfold bound_to in Hb.
  repeat split.
  - intros H key keylen.
    unfold gcry_mac_setkey, mac_setkey, bind.
    rewrite Hb, H. reflexivity.
  - intros H iv ivlen.
    unfold gcry_mac_setiv, mac_setiv, bind.
    rewrite Hb, H. reflexivity.
  - intros H inbuf inlen.
    unfold gcry_mac_write, mac_write, bind.
    rewrite Hb, H. reflexivity.
  - intros H outbuf outlen.
    unfold gcry_mac_read, mac_read.
    destruct outbuf as [buf|], outlen as [len|]; try reflexivity.
    destruct (len =? 0)%N; [reflexivity|].
    unfold bind. rewrite Hb, H. reflexivity.
  - intros H buf buflen.
    unfold gcry_mac_verify, mac_verify.
    destruct buf as [b|]; [|reflexivity].
    destruct (buflen =? 0)%N; [reflexivity|].
    unfold bind. rewrite Hb, H. reflexivity.
Qed.

(** *** Close *)

Lemma wipememory_eq (a : loc) (b : block context) (w : W) :
  heap w !! a = Some b ->
  wipememory (Some a) w
  = Some (tt, {| heap := <[a := {| blk_pool := blk_pool b;
                                   blk_data := zero_handle |}]> (heap w);
                 normal_left := normal_left w; secure_left := secure_left w;
                 errno := errno w; trace := trace w ++ [EvWipe a] |}).
Proof.
  intros Hl. unfold wipememory, bind, store, event_at, log.
  rewrite Hl. reflexivity.
Qed.

(** C7: closing a live handle runs, in this order, the descriptor's close
    callback when there is one (and nothing when there is none), then the
    wipe, after which the whole handle is zero, then the release of the
    block; the call always completes and has no result through which a
    failure could be reported. *)
Theorem close_sequence (w : W) (a : loc) (b : block context) (o : ops_t) :
  bound_to w (Some a) o ->
  heap w !! a = Some b ->
  exists w1 w2 w3,
    match close o with
    | Some f => call_close (Some a) f w
                = Some (tt, called OpClose a b (f (view (blk_data b))) w) /\
                w1 = called OpClose a b (f (view (blk_data b))) w
    | None => w1 = w
    end /\
    wipememory (Some a) w1 = Some (tt, w2) /\
    heap w2 !! a = Some {| blk_pool := blk_pool b; blk_data := zero_handle |} /\
    gcry_free (Some a) w2 = Some (tt, w3) /\
    gcry_mac_close (Some a) w = Some (tt, w3) /\
    heap w3 = delete a (heap w) /\
    heap w3 !! a = None /\
    trace w3 = trace w
               ++ match close o with
                  | Some _ => [EvCall OpClose a]
                  | None => []
                  end
               ++ [EvWipe a; EvFree a].
Proof.
  intros Hb Hl. unfold bound_to in Hb.
  set (w1 := match close o with
             | Some f => called OpClose a b (f (view (blk_data b))) w
             | None => w
             end).
  assert (H1 : exists b1, heap w1 !! a = Some b1 /\ blk_pool b1 = blk_pool b /\
                          delete a (heap w1) = delete a (heap w)).
  { subst w1. destruct (close o) as [f|].
    - eexists. unfold called. simpl. rewrite lookup_insert_eq.
      split; [reflexivity|]. split; [reflexivity|]. apply delete_insert_eq.
    - eauto. }
  destruct H1 as (b1 & Hl1 & Hp1 & Hd1).
  assert (Hc : (match close o with
                | Some f => call_close (Some a) f
                | None => ret tt
                end) w = Some (tt, w1)).
  { subst w1. destruct (close o) as [f|]; [|reflexivity].
    apply call_close_eq, Hl. }
  pose proof (wipememory_eq a b1 w1 Hl1) as Hw.
  match type of Hw with _ = Some (tt, ?x) => set (w2 := x) in * end.
  assert (Hl2 : heap w2 !! a
                = Some {| blk_pool := blk_pool b; blk_data := zero_handle |}).
  { subst w2. simpl. rewrite lookup_insert_eq, Hp1. reflexivity. }
  assert (Hf : exists w3, gcry_free (Some a) w2 = Some (tt, w3) /\
                          heap w3 = delete a (heap w2) /\
                          trace w3 = trace w2 ++ [EvFree a]).
  { unfold gcry_free. rewrite Hl2. eexists. split; [reflexivity|].
    split; reflexivity. }
  destruct Hf as (w3 & Hf & Hh3 & Ht3).
  exists w1, w2, w3.
  split.
  { subst w1. destruct (close o) as [f|]; [|reflexivity].
    split; [apply call_close_eq, Hl|reflexivity]. }
  split; [exact Hw|]. split; [exact Hl2|]. split; [exact Hf|].
  assert (Hh : heap w3 = delete a (heap w)).
  { rewrite Hh3. subst w2. simpl. rewrite delete_insert_eq. exact Hd1. }
  split.
  { unfold gcry_mac_close, mac_close.
    unfold bind at 1. rewrite Hb.
    unfold bind at 1. rewrite Hc.
    unfold bind at 1. rewrite Hw. exact Hf. }
  split; [exact Hh|]. split; [rewrite Hh; apply lookup_delete_eq|].
  rewrite Ht3. subst w2 w1. simpl.
  destruct (close o); simpl; rewrite <- ?app_assoc; reflexivity.
Qed.

(** *** Open *)

Lemma mandatory_test (o : ops_t) :
  negb (non_null (open o)) || negb (non_null (write o))
  || negb (non_null (setkey o)) || negb (non_null (read o))
  || negb (non_null (verify o)) || negb (non_null (reset o))
  = negb (mandatory o).
Proof.
  unfold mandatory.
  destruct (open o), (write o), (setkey o), (read o), (verify o), (reset o);
    reflexivity.
Qed.

Lemma mandatory_inv (o : ops_t) :
  mandatory o = true ->
  is_Some (open o) /\ is_Some (write o) /\ is_Some (setkey o) /\
  is_Some (read o) /\ is_Some (verify o) /\ is_Some (reset o).
Proof.
  unfold mandatory.
  destruct (open o), (write o), (setkey o), (read o), (verify o), (reset o);
    simpl; try discriminate; intros _; repeat split; eauto.
Qed.

Lemma fresh_unused (w : W) : heap w !! fresh (dom (heap w)) = None.
Proof. apply not_elem_of_dom, is_fresh. Qed.

Lemma calloc_in_eq (p : pool) (w : W) :
  calloc_in p w
  = match room p w with
    | O => Some (None, open_nomem p w)
    | S _ => Some (Some (fresh (dom (heap w))), allocated p w)
    end.
Proof.
  unfold calloc_in, room, open_nomem, allocated.
  destruct p.
  - destruct (normal_left w) eqn:E; reflexivity.
  - destruct (secure_left w) eqn:E; reflexivity.
Qed.

Lemma calloc_choice (secure : bool) (w : W) :
  (if secure then gcry_calloc_secure else gcry_calloc) w
  = calloc_in (pool_of secure) w.
Proof. destruct secure; reflexivity. Qed.

(** [mac_open] once the descriptor has been admitted. *)
Lemma mac_open_admitted (hd : gcry_mac_hd_t) (algo' : Z) (secure : bool)
    (ctx : gcry_ctx_t) (w : W) (s : spec_t) (o : ops_t)
    (f : mac_view context -> gcry_err_code_t * context) :
  spec_from_algo algo' = Some s -> flags_disabled s = false ->
  ops s = Some o -> mandatory o = true -> open o = Some f ->
  mac_open hd algo' secure ctx w
  = match room (pool_of secure) w with
    | O => Some ((GPG_ERR_ENOMEM, hd), open_nomem (pool_of secure) w)
    | S _ =>
        let r := f (view (stamped s algo' secure ctx)) in
        if fst r =? 0
        then Some ((fst r, Some (fresh (dom (heap w)))),
                   opened (pool_of secure)
                          (set_u (stamped s algo' secure ctx) (snd r)) w)
        else Some ((fst r, hd), open_undone (pool_of secure) w)
    end.
Proof.
  intros Hs Hd Ho Hm Hf. unfold mac_open.
  rewrite Hs, Hd, Ho, mandatory_test, Hm. cbn [negb].
  pose proof (fresh_unused w) as Hfresh.
  pose proof (calloc_in_eq (pool_of secure) w) as Ha.
  rewrite <- calloc_choice in Ha.
  set (p := pool_of secure) in *.
  set (a := fresh (dom (heap w))) in *.
  destruct (room p w) as [|n] eqn:Hroom.
  - rewrite (bind_Some _ _ _ _ _ Ha). reflexivity.
  - rewrite (bind_Some _ _ _ _ _ Ha). cbn [non_null negb].
    set (w1 := allocated p w) in *.
    assert (Hl1 : heap w1 !! a = Some {| blk_pool := p;
                                         blk_data := zero_handle |}).
    { subst w1. unfold allocated. cbn [heap]. apply lookup_insert_eq. }
    assert (Hload : load (Some a) w1 = Some (zero_handle, w1)).
    { unfold load. rewrite Hl1. reflexivity. }
    rewrite (bind_Some _ _ _ _ _ Hload). cbn [u zero_handle].
    fold (stamped s algo' secure ctx).
    set (h := stamped s algo' secure ctx).
    set (w2 := {| heap := <[a := {| blk_pool := p; blk_data := h |}]> (heap w);
                  normal_left := normal_left w1; secure_left := secure_left w1;
                  errno := errno w1; trace := trace w1 |}).
    assert (Hstore : store (Some a) h w1 = Some (tt, w2)).
    { unfold store. rewrite Hl1. subst w2 w1. unfold allocated. cbn.
      fold a. rewrite insert_insert_eq. reflexivity. }
    rewrite (bind_Some _ _ _ _ _ Hstore).
    assert (Hl2 : heap w2 !! a = Some {| blk_pool := p; blk_data := h |}).
    { subst w2. cbn [heap]. apply lookup_insert_eq. }
    assert (Hops : hd_ops (Some a) w2 = Some (o, w2)).
    { eapply bound_to_intro; [exact Hl2| |exact Ho]. reflexivity. }
    rewrite (bind_Some _ _ _ _ _ Hops), Hf.
    rewrite (bind_Some _ _ _ _ _ (call_eq OpOpen a _ f w2 Hl2)).
    cbn [blk_data]. cbv zeta.
    destruct (fst (f (view h)) =? 0) eqn:He; cbn [negb].
    + unfold ret. f_equal. f_equal.
      unfold called, opened. subst w2 w1. unfold allocated. fold a. cbn.
      rewrite insert_insert_eq, <- app_assoc. reflexivity.
    + match goal with |- bind (gcry_free _) _ ?ww = _ => set (w3 := ww) end.
      assert (Hfree : gcry_free (Some a) w3 = Some (tt, open_undone p w)).
      { unfold gcry_free, w3, called. cbn [heap]. rewrite lookup_insert_eq.
        unfold open_undone. fold a. subst w2 w1. unfold allocated. cbn.
        rewrite delete_insert_eq, delete_insert_id by exact Hfresh.
        rewrite <- !app_assoc. cbn.
        unfold room in Hroom.
        destruct p; rewrite Hroom; reflexivity. }
      rewrite (bind_Some _ _ _ _ _ Hfree). reflexivity.
Qed.

Lemma secure_flag_bit (flags : Z) :
  negb (Z.land flags GCRY_MAC_FLAG_SECURE =? 0) = Z.testbit flags 0.
Proof.
  change GCRY_MAC_FLAG_SECURE with (Z.ones 1).
  rewrite Z.land_ones by lia. change (2 ^ 1) with 2.
  rewrite <- Z.bit0_mod.
  destruct (Z.testbit flags 0); reflexivity.
Qed.

Lemma other_flag_bit (flags : Z) :
  (exists i, 0 < i /\ Z.testbit flags i = true) ->
  Z.land flags (Z.lnot GCRY_MAC_FLAG_SECURE) <> 0.
Proof.
  intros (i & Hi & Hb) H0.
  assert (Ht : Z.testbit (Z.land flags (Z.lnot GCRY_MAC_FLAG_SECURE)) i = true).
  { rewrite Z.land_spec, Hb, Z.lnot_spec by lia.
    change GCRY_MAC_FLAG_SECURE with (2 ^ 0).
    rewrite Z.pow2_bits_false by lia. reflexivity. }
  rewrite H0, Z.bits_0 in Ht. discriminate.
Qed.

Lemma mandatory_false (o : ops_t) :
  mandatory o = false <->
  open o = None \/ write o = None \/ setkey o = None \/
  read o = None \/ verify o = None \/ reset o = None.
Proof.
  unfold mandatory.
  destruct (open o), (write o), (setkey o), (read o), (verify o), (reset o);
    simpl; split; intros H; try discriminate; try reflexivity; auto 10;
    repeat (destruct H as [H|H]; try discriminate).
Qed.

(** Every way [gcry_mac_open] can go. *)
Lemma gcry_mac_open_eq (algo' flags : Z) (ctx : gcry_ctx_t) (w : W) :
  gcry_mac_open algo' flags ctx w
  = if negb (Z.land flags (Z.lnot GCRY_MAC_FLAG_SECURE) =? 0)
    then Some ((gpg_error GPG_ERR_INV_ARG, None), w)
    else
      let secure := Z.testbit flags 0 in
      match spec_from_algo algo' with
      | None => Some ((gpg_error GPG_ERR_MAC_ALGO, None), w)
      | Some s =>
          if flags_disabled s
          then Some ((gpg_error GPG_ERR_MAC_ALGO, None), w)
          else
            match ops s with
            | None => Some ((gpg_error GPG_ERR_MAC_ALGO, None), w)
            | Some o =>
                match open o with
                | Some f =>
                    if mandatory o then
                      match room (pool_of secure) w with
                      | O => Some ((gpg_error GPG_ERR_ENOMEM, None),
                                   open_nomem (pool_of secure) w)
                      | S _ =>
                          let r := f (view (stamped s algo' secure ctx)) in
                          if fst r =? 0
                          then Some ((0, Some (fresh (dom (heap w)))),
                                     opened (pool_of secure)
                                       (set_u (stamped s algo' secure ctx) (snd r)) w)
                          else Some ((gpg_error (fst r), None),
                                     open_undone (pool_of secure) w)
                      end
                    else Some ((gpg_error GPG_ERR_MAC_ALGO, None), w)
                | None => Some ((gpg_error GPG_ERR_MAC_ALGO, None), w)
                end
            end
      end.
Proof.
  unfold gcry_mac_open.
  destruct (negb (Z.land flags (Z.lnot GCRY_MAC_FLAG_SECURE) =? 0));
    [reflexivity|].
  rewrite secure_flag_bit. cbv zeta.
  set (secure := Z.testbit flags 0).
  destruct (spec_from_algo algo') as [s|] eqn:Es.
  2:{ unfold bind, mac_open. rewrite Es. reflexivity. }
  destruct (flags_disabled s) eqn:Ed.
  { unfold bind, mac_open. rewrite Es, Ed. reflexivity. }
  destruct (ops s) as [o|] eqn:Eo.
  2:{ unfold bind, mac_open. rewrite Es, Ed, Eo. reflexivity. }
  destruct (mandatory o) eqn:Em.
  - destruct (mandatory_inv o Em) as ([f Hf] & _). rewrite Hf.
    unfold bind at 1.
    rewrite (mac_open_admitted None algo' secure ctx w s o f Es Ed Eo Em Hf).
    destruct (room (pool_of secure) w); [reflexivity|]. cbv zeta.
    destruct (fst (f (view (stamped s algo' secure ctx))) =? 0) eqn:He.
    + apply Z.eqb_eq in He. unfold ret. cbn [fst snd]. rewrite He. reflexivity.
    + unfold ret. cbn [fst snd]. rewrite He. reflexivity.
  - assert (mac_open None algo' secure ctx w
            = Some ((GPG_ERR_MAC_ALGO, None), w)) as Hm.
    { unfold mac_open. rewrite Es, Ed, Eo, mandatory_test, Em. reflexivity. }
    unfold bind. rewrite Hm. destruct (open o); reflexivity.
Qed.

(** *** What a call can change *)

Lemma same_binding_refl (b : block context) : same_binding b b.
Proof. repeat split. Qed.

Lemma same_binding_trans (b1 b2 b3 : block context) :
  same_binding b1 b2 -> same_binding b2 b3 -> same_binding b1 b3.
Proof.
  unfold same_binding. intros (?&?&?&?&?) (?&?&?&?&?).
  repeat split; congruence.
Qed.

Lemma keeps_refl (a : loc) (w : W) : keeps a w w.
Proof. intros b Hb. exists b. split; [exact Hb|apply same_binding_refl]. Qed.

Lemma keeps_trans (a : loc) (w1 w2 w3 : W) :
  keeps a w1 w2 -> keeps a w2 w3 -> keeps a w1 w3.
Proof.
  intros H12 H23 b Hb.
  destruct (H12 b Hb) as (b2 & Hb2 & Hs2).
  destruct (H23 b2 Hb2) as (b3 & Hb3 & Hs3).
  exists b3. split; [exact Hb3|]. eapply same_binding_trans; eauto.
Qed.

Lemma keeps_same_heap (a : loc) (w w' : W) : heap w' = heap w -> keeps a w w'.
Proof.
  intros H b Hb. exists b. rewrite H. split; [exact Hb|apply same_binding_refl].
Qed.

Lemma touched_keeps (a : loc) (w w' : W) : touched w w' -> keeps a w w'.
Proof.
  intros [->|(op & a0 & b0 & c & Hl & ->)]; [apply keeps_refl|].
  intros b Hb. unfold called. cbn [heap].
  destruct (decide (a0 = a)) as [->|Hne].
  - rewrite lookup_insert_eq. eexists. split; [reflexivity|].
    assert (b0 = b) by congruence. subst b0. repeat split.
  - rewrite lookup_insert_ne by exact Hne. exists b.
    split; [exact Hb|apply same_binding_refl].
Qed.

Lemma hd_ops_same_world (hd : gcry_mac_hd_t) (w w' : W) (o : ops_t) :
  hd_ops hd w = Some (o, w') -> w' = w.
Proof.
  unfold hd_ops, bind, load, undef, ret.
  destruct hd as [a|]; [|discriminate].
  destruct (heap w !! a) as [b|]; [|discriminate].
  destruct (spec (blk_data b)) as [s|]; [|discriminate].
  destruct (ops s); [|discriminate].
  intros [= _ ->]. reflexivity.
Qed.

Lemma call_touched (op : op_id) (hd : gcry_mac_hd_t)
    (f : mac_view context -> gcry_err_code_t * context) (w w' : W)
    (e : gcry_err_code_t) :
  call op hd f w = Some (e, w') -> touched w w'.
Proof.
  destruct hd as [a|]; [|discriminate].
  destruct (heap w !! a) as [b|] eqn:Hl.
  - rewrite (call_eq _ _ _ _ _ Hl). intros [= _ <-]. right. eauto 10.
  - unfold call, bind, load. rewrite Hl. discriminate.
Qed.

Lemma call_read_touched (hd : gcry_mac_hd_t)
    (f : mac_view context -> bytes -> N -> gcry_err_code_t * context * (bytes * N))
    (outbuf : bytes) (outlen : N) (w w' : W)
    (r : gcry_err_code_t * (option bytes * option N)) :
  call_read hd f outbuf outlen w = Some (r, w') -> touched w w'.
Proof.
  destruct hd as [a|]; [|discriminate].
  destruct (heap w !! a) as [b|] eqn:Hl.
  - rewrite (call_read_eq _ _ _ _ _ _ Hl). intros [= _ <-]. right. eauto 10.
  - unfold call_read, bind, load. rewrite Hl. discriminate.
Qed.

(** Splitting a dispatch function at its first step, [hd->spec->ops]. *)
Ltac after_hd_ops hd w :=
  unfold bind at 1;
  let o := fresh "o" in
  let w1 := fresh "w1" in
  let E := fresh "E" in
  destruct (hd_ops hd w) as [[o w1]|] eqn:E; [|discriminate];
  apply hd_ops_same_world in E; subst w1.

Lemma mac_setkey_touched (hd : gcry_mac_hd_t) (key : option bytes)
    (keylen : N) (w w' : W) (e : gcry_error_t) :
  mac_setkey hd key keylen w = Some (e, w') -> touched w w'.
Proof.
  unfold mac_setkey. after_hd_ops hd w.
  destruct (setkey o) as [f|]; [|intros [= _ <-]; left; reflexivity].
  destruct ((0 <? keylen)%N && negb (non_null key));
    [intros [= _ <-]; left; reflexivity|].
  apply call_touched.
Qed.

Lemma mac_setiv_touched (hd : gcry_mac_hd_t) (iv : option bytes)
    (ivlen : N) (w w' : W) (e : gcry_error_t) :
  mac_setiv hd iv ivlen w = Some (e, w') -> touched w w'.
Proof.
  unfold mac_setiv. after_hd_ops hd w.
  destruct (setiv o) as [f|]; [|intros [= _ <-]; left; reflexivity].
  destruct ((0 <? ivlen)%N && negb (non_null iv));
    [intros [= _ <-]; left; reflexivity|].
  apply call_touched.
Qed.

Lemma mac_write_touched (hd : gcry_mac_hd_t) (inbuf : option bytes)
    (inlen : N) (w w' : W) (e : gcry_error_t) :
  mac_write hd inbuf inlen w = Some (e, w') -> touched w w'.
Proof.
  unfold mac_write. after_hd_ops hd w.
  destruct (write o) as [f|]; [|intros [= _ <-]; left; reflexivity].
  destruct ((0 <? inlen)%N && negb (non_null inbuf));
    [intros [= _ <-]; left; reflexivity|].
  apply call_touched.
Qed.

Lemma mac_read_touched (hd : gcry_mac_hd_t) (outbuf : option bytes)
    (outlen : option N) (w w' : W)
    (r : gcry_error_t * (option bytes * option N)) :
  mac_read hd outbuf outlen w = Some (r, w') -> touched w w'.
Proof.
  unfold mac_read.
  destruct outbuf as [buf|], outlen as [len|];
    try (intros [= _ <-]; left; reflexivity).
  destruct (len =? 0)%N; [intros [= _ <-]; left; reflexivity|].
  after_hd_ops hd w.
  destruct (read o) as [f|]; [|intros [= _ <-]; left; reflexivity].
  apply call_read_touched.
Qed.

Lemma mac_verify_touched (hd : gcry_mac_hd_t) (buf : option bytes)
    (buflen : N) (w w' : W) (e : gcry_error_t) :
  mac_verify hd buf buflen w = Some (e, w') -> touched w w'.
Proof.
  unfold mac_verify.
  destruct buf as [b|]; [|intros [= _ <-]; left; reflexivity].
  destruct (buflen =? 0)%N; [intros [= _ <-]; left; reflexivity|].
  after_hd_ops hd w.
  destruct (verify o) as [f|]; [|intros [= _ <-]; left; reflexivity].
  apply call_touched.
Qed.

Lemma mac_reset_touched (hd : gcry_mac_hd_t) (w w' : W) (e : gcry_error_t) :
  mac_reset hd w = Some (e, w') -> touched w w'.
Proof.
  unfold mac_reset. after_hd_ops hd w.
  destruct (reset o) as [f|]; [|intros [= _ <-]; left; reflexivity].
  apply call_touched.
Qed.

Lemma mac_close_heap (hd : gcry_mac_hd_t) (w w' : W) :
  mac_close hd w = Some (tt, w') ->
  exists a, hd = Some a /\ heap w' = delete a (heap w).
Proof.
  unfold mac_close. unfold bind at 1.
  destruct (hd_ops hd w) as [[o w0]|] eqn:E; [|discriminate].
  pose proof (hd_ops_same_world _ _ _ _ E). subst w0.
  destruct (bound_to_inv w hd o E) as (a & b & s & -> & Hl & _ & _).
  exists a. split; [reflexivity|].
  assert (Hc : exists w1 b1,
             (match close o with
              | Some f => call_close (Some a) f
              | None => ret tt
              end) w = Some (tt, w1) /\ heap w1 !! a = Some b1 /\
             delete a (heap w1) = delete a (heap w)).
  { destruct (close o) as [f|].
    - rewrite (call_close_eq _ _ _ _ Hl). eexists. eexists.
      split; [reflexivity|]. unfold called. cbn [heap].
      rewrite lookup_insert_eq, delete_insert_eq. split; reflexivity.
    - exists w, b. repeat split. exact Hl. }
  destruct Hc as (w1 & b1 & Hc & Hl1 & Hd1).
  unfold bind at 1 in H. rewrite Hc in H.
  unfold bind in H. rewrite (wipememory_eq _ _ _ Hl1) in H.
  unfold gcry_free in H. cbn [heap] in H. rewrite lookup_insert_eq in H.
  injection H as <-. cbn [heap]. rewrite delete_insert_eq. exact Hd1.
Qed.

Lemma gcry_mac_open_keeps (a : loc) (algo' flags : Z) (ctx : gcry_ctx_t)
    (w w' : W) (r : gcry_error_t * gcry_mac_hd_t) :
  gcry_mac_open algo' flags ctx w = Some (r, w') -> keeps a w w'.
Proof.
  rewrite gcry_mac_open_eq.
  destruct (negb _); [intros [= _ <-]; apply keeps_refl|].
  cbv zeta.
  destruct (spec_from_algo algo') as [s|]; [|intros [= _ <-]; apply keeps_refl].
  destruct (flags_disabled s); [intros [= _ <-]; apply keeps_refl|].
  destruct (ops s) as [o|]; [|intros [= _ <-]; apply keeps_refl].
  destruct (open o) as [f|]; [|intros [= _ <-]; apply keeps_refl].
  destruct (mandatory o); [|intros [= _ <-]; apply keeps_refl].
  destruct (room _ w).
  { intros [= _ <-]. apply keeps_same_heap. reflexivity. }
  cbv zeta. destruct (Z.eqb _ 0).
  - intros [= _ <-]. intros b Hb. unfold opened. cbn [heap].
    rewrite lookup_insert_ne.
    + exists b. split; [exact Hb|apply same_binding_refl].
    + intros Heq. pose proof (fresh_unused w) as Hf. rewrite Heq in Hf.
      congruence.
  - intros [= _ <-]. apply keeps_same_heap. reflexivity.
Qed.

(** One request leaves every handle it does not close where it is, bound
    as it was. *)
Lemma perform_keeps (a : loc) (r : request) (w w' : W) :
  closes a r = false -> perform r w = Some (tt, w') -> keeps a w w'.
Proof.
  intros Hc. destruct r as [al fl cx|hd|hd k n|hd k n|hd k n|hd bf n|hd bf n|hd c bf n];
    simpl; unfold bind.
  - destruct (gcry_mac_open al fl cx w) as [[r w1]|] eqn:E; [|discriminate].
    intros [= <-]. eapply gcry_mac_open_keeps, E.
  - unfold gcry_mac_close. intros H.
    destruct (mac_close_heap _ _ _ H) as (a0 & -> & Hh).
    simpl in Hc. apply Pos.eqb_neq in Hc.
    intros b Hb. exists b. rewrite Hh, lookup_delete_ne by congruence.
    split; [exact Hb|apply same_binding_refl].
  - unfold gcry_mac_setkey, bind.
    destruct (mac_setkey hd k n w) as [[e w1]|] eqn:E; [|discriminate].
    intros [= <-]. eapply touched_keeps, mac_setkey_touched, E.
  - unfold gcry_mac_setiv, bind.
    destruct (mac_setiv hd k n w) as [[e w1]|] eqn:E; [|discriminate].
    intros [= <-]. eapply touched_keeps, mac_setiv_touched, E.
  - unfold gcry_mac_write, bind.
    destruct (mac_write hd k n w) as [[e w1]|] eqn:E; [|discriminate].
    intros [= <-]. eapply touched_keeps, mac_write_touched, E.
  - unfold gcry_mac_read, bind.
    destruct (mac_read hd bf n w) as [[e w1]|] eqn:E; [|discriminate].
    intros [= <-]. eapply touched_keeps, mac_read_touched, E.
  - unfold gcry_mac_verify, bind.
    destruct (mac_verify hd bf n w) as [[e w1]|] eqn:E; [|discriminate].
    intros [= <-]. eapply touched_keeps, mac_verify_touched, E.
  - unfold gcry_mac_ctl, bind.
    destruct (c =? GCRYCTL_RESET).
    + destruct (mac_reset hd w) as [[e w1]|] eqn:E; [|discriminate].
      intros [= <-]. eapply touched_keeps, mac_reset_touched, E.
    + intros [= <-]. apply keeps_refl.
Qed.

(** Any sequence of requests that does not close the handle at [a] leaves
    it allocated and bound as it was. *)
Lemma run_keeps (a : loc) (rs : list request) :
  forall w w', Forall (fun r => closes a r = false) rs ->
               run rs w = Some (tt, w') -> keeps a w w'.
Proof.
  induction rs as [|r rs IH]; intros w w' Hall; simpl.
  - intros [= <-]. apply keeps_refl.
  - inversion Hall as [|? ? Hr Hrs]; subst.
    unfold bind. destruct (perform r w) as [[[] w1]|] eqn:E; [|discriminate].
    intros Hrun. eapply keeps_trans.
    + eapply perform_keeps; eauto.
    + apply IH; assumption.
Qed.

(** *** Successful opens *)

Lemma gcry_mac_open_success (algo' flags : Z) (ctx : gcry_ctx_t) (w w' : W)
    (hd : gcry_mac_hd_t) :
  gcry_mac_open algo' flags ctx w = Some ((0, hd), w') ->
  exists s o f,
    Z.land flags (Z.lnot GCRY_MAC_FLAG_SECURE) = 0 /\
    spec_from_algo algo' = Some s /\ flags_disabled s = false /\
    ops s = Some o /\ mandatory o = true /\ open o = Some f /\
    room (pool_of (Z.testbit flags 0)) w <> O /\
    fst (f (view (stamped s algo' (Z.testbit flags 0) ctx))) = 0 /\
    hd = Some (fresh (dom (heap w))) /\
    w' = opened (pool_of (Z.testbit flags 0))
           (set_u (stamped s algo' (Z.testbit flags 0) ctx)
                  (snd (f (view (stamped s algo' (Z.testbit flags 0) ctx))))) w.
Proof.
  rewrite gcry_mac_open_eq.
  assert (Hne : forall c h (x : W), c <> 0 ->
            Some ((gpg_error c, h), x) = Some ((0, hd), w') -> False).
  { intros c h x Hc [= H _ _]. apply (proj1 (gpg_error_zero_iff c)) in H.
    auto. }
  destruct (Z.eqb_spec (Z.land flags (Z.lnot GCRY_MAC_FLAG_SECURE)) 0)
    as [Hfl|_]; cbn [negb];
    [|intros H; exfalso; revert H; apply Hne; discriminate].
  cbv zeta.
  destruct (spec_from_algo algo') as [s|] eqn:Es;
    [|intros H; exfalso; revert H; apply Hne; discriminate].
  destruct (flags_disabled s) eqn:Ed;
    [intros H; exfalso; revert H; apply Hne; discriminate|].
  destruct (ops s) as [o|] eqn:Eo;
    [|intros H; exfalso; revert H; apply Hne; discriminate].
  destruct (open o) as [f|] eqn:Ef;
    [|intros H; exfalso; revert H; apply Hne; discriminate].
  destruct (mandatory o) eqn:Em;
    [|intros H; exfalso; revert H; apply Hne; discriminate].
  destruct (room _ w) eqn:Er;
    [intros H; exfalso; revert H; apply Hne; discriminate|].
  destruct (Z.eqb_spec (fst (f (view (stamped s algo' (Z.testbit flags 0) ctx)))) 0)
    as [He|He].
  - intros [= <- <-]. exists s, o, f. repeat split; auto.
  - intros H; exfalso; revert H; apply Hne; exact He.
Qed.

Lemma setkey_forwarded (w : W) (a : loc) (b : block context) (o : ops_t)
    (f : mac_view context -> option bytes -> N -> gcry_err_code_t * context)
    (key : option bytes) (keylen : N) :
  bound_to w (Some a) o -> heap w !! a = Some b -> setkey o = Some f ->
  keylen = 0%N \/ is_Some key ->
  gcry_mac_setkey (Some a) key keylen w
  = Some (gpg_error (fst (f (view (blk_data b)) key keylen)),
          called OpSetkey a b (snd (f (view (blk_data b)) key keylen)) w).
Proof.
  intros Hb Hl Hf Harg. unfold bound_to in Hb.
  unfold gcry_mac_setkey, mac_setkey. unfold bind at 1 2. rewrite Hb, Hf.
  assert ((0 <? keylen)%N && negb (non_null key) = false) as ->.
  { destruct Harg as [->|[k ->]]; [reflexivity|apply andb_false_r]. }
  rewrite (call_eq _ _ _ _ _ Hl). reflexivity.
Qed.

Lemma write_forwarded (w : W) (a : loc) (b : block context) (o : ops_t)
    (f : mac_view context -> option bytes -> N -> gcry_err_code_t * context)
    (inbuf : option bytes) (inlen : N) :
  bound_to w (Some a) o -> heap w !! a = Some b -> write o = Some f ->
  inlen = 0%N \/ is_Some inbuf ->
  gcry_mac_write (Some a) inbuf inlen w
  = Some (gpg_error (fst (f (view (blk_data b)) inbuf inlen)),
          called OpWrite a b (snd (f (view (blk_data b)) inbuf inlen)) w).
Proof.
  intros Hb Hl Hf Harg. unfold bound_to in Hb.
  unfold gcry_mac_write, mac_write. unfold bind at 1 2. rewrite Hb, Hf.
  assert ((0 <? inlen)%N && negb (non_null inbuf) = false) as ->.
  { destruct Harg as [->|[k ->]]; [reflexivity|apply andb_false_r]. }
  rewrite (call_eq _ _ _ _ _ Hl). reflexivity.
Qed.

Lemma read_forwarded (w : W) (a : loc) (b : block context) (o : ops_t)
    (f : mac_view context -> bytes -> N -> gcry_err_code_t * context * (bytes * N))
    (outbuf : bytes) (outlen : N) :
  bound_to w (Some a) o -> heap w !! a = Some b -> read o = Some f ->
  outlen <> 0%N ->
  gcry_mac_read (Some a) (Some outbuf) (Some outlen) w
  = let r := f (view (blk_data b)) outbuf outlen in
    Some ((gpg_error (fst (fst r)), (Some (fst (snd r)), Some (snd (snd r)))),
          called OpRead a b (snd (fst r)) w).
Proof.
  intros Hb Hl Hf Harg. unfold bound_to in Hb.
  unfold gcry_mac_read, mac_read.
  apply N.eqb_neq in Harg. rewrite Harg.
  unfold bind at 1 2. rewrite Hb, Hf.
  rewrite (call_read_eq _ _ _ _ _ _ Hl). reflexivity.
Qed.

Lemma verify_forwarded (w : W) (a : loc) (b : block context) (o : ops_t)
    (f : mac_view context -> bytes -> N -> gcry_err_code_t * context)
    (buf : bytes) (buflen : N) :
  bound_to w (Some a) o -> heap w !! a = Some b -> verify o = Some f ->
  buflen <> 0%N ->
  gcry_mac_verify (Some a) (Some buf) buflen w
  = Some (gpg_error (fst (f (view (blk_data b)) buf buflen)),
          called OpVerify a b (snd (f (view (blk_data b)) buf buflen)) w).
Proof.
  intros Hb Hl Hf Harg. unfold bound_to in Hb.
  unfold gcry_mac_verify, mac_verify.
  apply N.eqb_neq in Harg. rewrite Harg.
  unfold bind at 1 2. rewrite Hb, Hf.
  rewrite (call_eq _ _ _ _ _ Hl). reflexivity.
Qed.

Lemma reset_forwarded (w : W) (a : loc) (b : block context) (o : ops_t)
    (f : mac_view context -> gcry_err_code_t * context)
    (buffer : option bytes) (buflen : N) :
  bound_to w (Some a) o -> heap w !! a = Some b -> reset o = Some f ->
  gcry_mac_ctl (Some a) GCRYCTL_RESET buffer buflen w
  = Some (gcry_error (fst (f (view (blk_data b)))),
          called OpReset a b (snd (f (view (blk_data b)))) w).
Proof.
  intros Hb Hl Hf. unfold bound_to in Hb.
  unfold gcry_mac_ctl, mac_reset. rewrite Z.eqb_refl.
  unfold bind at 1 2. rewrite Hb, Hf.
  rewrite (call_eq _ _ _ _ _ Hl). reflexivity.
Qed.

Lemma forwards_intro (w : W) (a : loc) (b : block context) (o : ops_t) :
  bound_to w (Some a) o -> heap w !! a = Some b -> mandatory o = true ->
  forwards w a b o.
Proof.
  intros Hb Hl Hm.
  destruct (mandatory_inv o Hm) as (_ & [fw Hw] & [fk Hk] & [fr Hr] & [fv Hv] & [fz Hz]).
  unfold forwards. repeat split.
  - exists fk. split; [exact Hk|]. intros. eapply setkey_forwarded; eauto.
  - exists fw. split; [exact Hw|]. intros. eapply write_forwarded; eauto.
  - exists fr. split; [exact Hr|]. intros. eapply read_forwarded; eauto.
  - exists fv. split; [exact Hv|]. intros. eapply verify_forwarded; eauto.
  - exists fz. split; [exact Hz|]. intros. eapply reset_forwarded; eauto.
Qed.

Lemma setiv_forwarded (w : W) (a : loc) (b : block context) (o : ops_t)
    (f : mac_view context -> option bytes -> N -> gcry_err_code_t * context)
    (iv : option bytes) (ivlen : N) :
  bound_to w (Some a) o -> heap w !! a = Some b -> setiv o = Some f ->
  ivlen = 0%N \/ is_Some iv ->
  gcry_mac_setiv (Some a) iv ivlen w
  = Some (gpg_error (fst (f (view (blk_data b)) iv ivlen)),
          called OpSetiv a b (snd (f (view (blk_data b)) iv ivlen)) w).
Proof.
  intros Hb Hl Hf Harg. unfold bound_to in Hb.
  unfold gcry_mac_setiv, mac_setiv. unfold bind at 1 2. rewrite Hb, Hf.
  assert ((0 <? ivlen)%N && negb (non_null iv) = false) as ->.
  { destruct Harg as [->|[k ->]]; [reflexivity|apply andb_false_r]. }
  rewrite (call_eq _ _ _ _ _ Hl). reflexivity.
Qed.

(** An algorithm that answers 0 and leaves [u] alone makes the forwarded
    call a successful no-op. *)
Lemma forwarded_noop (op : op_id) (a : loc) (b : block context) (w : W)
    (r : gcry_err_code_t * context) (res : option (gcry_error_t * W)) :
  heap w !! a = Some b ->
  res = Some (gpg_error (fst r), called op a b (snd r) w) ->
  r = (0, u (blk_data b)) ->
  exists w', res = Some (0, w') /\ heap w' = heap w /\
             trace w' = trace w ++ [EvCall op a].
Proof.
  intros Hl -> ->. eexists. split; [reflexivity|].
  split; [apply called_same_u, Hl|reflexivity].
Qed.

(** *** Argument validation *)

(** C5: on a live handle whose descriptor provides the operation, setkey,
    setiv and write called with length 0 and a NULL pointer are not
    rejected: the call is forwarded to the algorithm and its result
    returned, so that an algorithm taking zero bytes as a no-op makes the
    call succeed with the handle unchanged; called with a positive length
    and a NULL pointer they return [GPG_ERR_INV_ARG] and the algorithm is
    not invoked (the world is as before); and read returns
    [GPG_ERR_INV_ARG] when the buffer is NULL, the length slot is NULL or
    the length is 0, whatever the other arguments, the handle included. *)
Theorem generic_argument_validation (w : W) (a : loc) (b : block context)
    (o : ops_t) :
  bound_to w (Some a) o ->
  heap w !! a = Some b ->
  (forall f, setkey o = Some f ->
     gcry_mac_setkey (Some a) None 0 w
     = Some (gpg_error (fst (f (view (blk_data b)) None 0%N)),
             called OpSetkey a b (snd (f (view (blk_data b)) None 0%N)) w) /\
     (f (view (blk_data b)) None 0%N = (0, u (blk_data b)) ->
      exists w', gcry_mac_setkey (Some a) None 0 w = Some (0, w') /\
                 heap w' = heap w /\
                 trace w' = trace w ++ [EvCall OpSetkey a]) /\
     (forall n, (0 < n)%N ->
        gcry_mac_setkey (Some a) None n w
        = Some (gpg_error GPG_ERR_INV_ARG, w))) /\
  (forall f, setiv o = Some f ->
     gcry_mac_setiv (Some a) None 0 w
     = Some (gpg_error (fst (f (view (blk_data b)) None 0%N)),
             called OpSetiv a b (snd (f (view (blk_data b)) None 0%N)) w) /\
     (f (view (blk_data b)) None 0%N = (0, u (blk_data b)) ->
      exists w', gcry_mac_setiv (Some a) None 0 w = Some (0, w') /\
                 heap w' = heap w /\
                 trace w' = trace w ++ [EvCall OpSetiv a]) /\
     (forall n, (0 < n)%N ->
        gcry_mac_setiv (Some a) None n w
        = Some (gpg_error GPG_ERR_INV_ARG, w))) /\
  (forall f, write o = Some f ->
     gcry_mac_write (Some a) None 0 w
     = Some (gpg_error (fst (f (view (blk_data b)) None 0%N)),
             called OpWrite a b (snd (f (view (blk_data b)) None 0%N)) w) /\
     (f (view (blk_data b)) None 0%N = (0, u (blk_data b)) ->
      exists w', gcry_mac_write (Some a) None 0 w = Some (0, w') /\
                 heap w' = heap w /\
                 trace w' = trace w ++ [EvCall OpWrite a]) /\
     (forall n, (0 < n)%N ->
        gcry_mac_write (Some a) None n w
        = Some (gpg_error GPG_ERR_INV_ARG, w))) /\
  (forall hd outbuf outlen,
     outbuf = None \/ outlen = None \/ outlen = Some 0%N ->
     gcry_mac_read hd outbuf outlen w
     = Some ((gpg_error GPG_ERR_INV_ARG, (outbuf, outlen)), w)).
Proof.
  intros Hb Hl.
  split; [|split; [|split]].
  - intros f Hf.
    pose proof (setkey_forwarded w a b o f None 0%N Hb Hl Hf
                  (or_introl eq_refl)) as Hfw.
    split; [exact Hfw|]. split.
    + intros Hnoop. eapply forwarded_noop; eauto.
    + intros n Hn. apply N.ltb_lt in Hn. unfold bound_to in Hb.
      unfold gcry_mac_setkey, mac_setkey, bind. rewrite Hb, Hf, Hn. reflexivity.
  - intros f Hf.
    pose proof (setiv_forwarded w a b o f None 0%N Hb Hl Hf
                  (or_introl eq_refl)) as Hfw.
    split; [exact Hfw|]. split.
    + intros Hnoop. eapply forwarded_noop; eauto.
    + intros n Hn. apply N.ltb_lt in Hn. unfold bound_to in Hb.
      unfold gcry_mac_setiv, mac_setiv, bind. rewrite Hb, Hf, Hn. reflexivity.
  - intros f Hf.
    pose proof (write_forwarded w a b o f None 0%N Hb Hl Hf
                  (or_introl eq_refl)) as Hfw.
    split; [exact Hfw|]. split.
    + intros Hnoop. eapply forwarded_noop; eauto.
    + intros n Hn. apply N.ltb_lt in Hn. unfold bound_to in Hb.
      unfold gcry_mac_write, mac_write, bind. rewrite Hb, Hf, Hn. reflexivity.
  - intros hd outbuf outlen H. unfold gcry_mac_read, mac_read.
    destruct H as [->|[->| ->]]; [reflexivity| |].
    + destruct outbuf; reflexivity.
    + destruct outbuf; reflexivity.
Qed.

(** *** The claims about open *)

(** C3: [gcry_mac_open] always returns; with a flag bit other than SECURE
    set it returns [GPG_ERR_INV_ARG] and the world is untouched (nothing is
    allocated); with valid flags and an id that is unregistered, disabled,
    without capability table or lacking one of open, write, setkey, read,
    verify, reset it returns [GPG_ERR_MAC_ALGO], again with the world
    untouched; when the algorithm's open callback reports an error the
    block just allocated is released and that error is returned; and
    whenever the returned value is an error the output slot holds NULL and
    the heap holds exactly the blocks it held before. *)
Theorem open_error_contract (algo' flags : Z) (ctx : gcry_ctx_t) (w : W) :
  (exists e h w', gcry_mac_open algo' flags ctx w = Some ((e, h), w')) /\
  ((exists i, 0 < i /\ Z.testbit flags i = true) ->
   gcry_mac_open algo' flags ctx w
   = Some ((gpg_error GPG_ERR_INV_ARG, None), w)) /\
  (Z.land flags (Z.lnot GCRY_MAC_FLAG_SECURE) = 0 -> not_openable algo' ->
   gcry_mac_open algo' flags ctx w
   = Some ((gpg_error GPG_ERR_MAC_ALGO, None), w)) /\
  (forall s o f,
     Z.land flags (Z.lnot GCRY_MAC_FLAG_SECURE) = 0 ->
     spec_from_algo algo' = Some s -> flags_disabled s = false ->
     ops s = Some o -> mandatory o = true -> open o = Some f ->
     room (pool_of (Z.testbit flags 0)) w <> O ->
     let err := fst (f (view (stamped s algo' (Z.testbit flags 0) ctx))) in
     err <> 0 ->
     gcry_mac_open algo' flags ctx w
     = Some ((gpg_error err, None),
             open_undone (pool_of (Z.testbit flags 0)) w) /\
     gpg_error err <> 0 /\
     gpg_err_code (gpg_error err) = Z.land err GPG_ERR_CODE_MASK) /\
  (forall e h w',
     gcry_mac_open algo' flags ctx w = Some ((e, h), w') -> e <> 0 ->
     h = None /\ heap w' = heap w).
Proof.
  pose proof (gcry_mac_open_eq algo' flags ctx w) as Heq.
  split; [|split; [|split; [|split]]].
  - rewrite Heq.
    destruct (negb _); [eauto|]. cbv zeta.
    destruct (spec_from_algo algo') as [s|]; [|eauto].
    destruct (flags_disabled s); [eauto|].
    destruct (ops s) as [o|]; [|eauto].
    destruct (open o) as [f|]; [|eauto].
    destruct (mandatory o); [|eauto].
    destruct (room _ w); [eauto|]. cbv zeta.
    destruct (Z.eqb _ 0); eauto.
  - intros Hbit. apply other_flag_bit, Z.eqb_neq in Hbit.
    rewrite Heq, Hbit. reflexivity.
  - intros Hfl Hno. apply Z.eqb_eq in Hfl. rewrite Heq, Hfl. cbn [negb].
    cbv zeta. destruct Hno as [->|(s & -> & Hs)]; [reflexivity|].
    destruct Hs as [->|[->|(o & -> & Ho)]]; [reflexivity| |].
    + destruct (flags_disabled s); reflexivity.
    + apply mandatory_false in Ho. rewrite Ho.
      destruct (flags_disabled s); [reflexivity|].
      destruct (open o); reflexivity.
  - intros s o f Hfl Hs Hd Ho Hm Hf Hroom err He. subst err.
    apply Z.eqb_eq in Hfl. rewrite Heq, Hfl, Hs, Hd, Ho, Hf, Hm. cbn [negb].
    cbv zeta. destruct (room _ w); [congruence|].
    pose proof He as He'. apply Z.eqb_neq in He'. rewrite He'.
    split; [reflexivity|].
    split; [rewrite gpg_error_zero_iff; exact He|].
    apply gpg_err_code_gpg_error.
  - intros e h w' H He. rewrite Heq in H.
    destruct (negb _); [injection H as <- <- <-; auto|]. cbv zeta in H.
    destruct (spec_from_algo algo') as [s|]; [|injection H as <- <- <-; auto].
    destruct (flags_disabled s); [injection H as <- <- <-; auto|].
    destruct (ops s) as [o|]; [|injection H as <- <- <-; auto].
    destruct (open o) as [f|]; [|injection H as <- <- <-; auto].
    destruct (mandatory o); [|injection H as <- <- <-; auto].
    destruct (room _ w); [injection H as <- <- <-; auto|]. cbv zeta in H.
    destruct (Z.eqb _ 0); injection H as <- <- <-; [congruence|auto].
Qed.

(** C9: after a successful open the handle sits in a block that the
    allocator handed out zeroed at an address unused before, taken from the
    secure pool exactly when the SECURE flag was given and from the normal
    pool otherwise; its tag is [CTX_MAGIC_SECURE] exactly when the pool is
    the secure one and [CTX_MAGIC_NORMAL] exactly when it is the normal
    one; and through every later sequence of calls that does not close the
    handle, pool and tag stay what they are. *)
Theorem secure_binding (algo' flags : Z) (ctx : gcry_ctx_t) (w w' : W)
    (hd : gcry_mac_hd_t) :
  gcry_mac_open algo' flags ctx w = Some ((0, hd), w') ->
  exists a b,
    hd = Some a /\ heap w !! a = None /\ heap w' !! a = Some b /\
    (blk_pool b = SecurePool <-> Z.testbit flags 0 = true) /\
    (blk_pool b = NormalPool <-> Z.testbit flags 0 = false) /\
    (magic (blk_data b) = CTX_MAGIC_SECURE <-> blk_pool b = SecurePool) /\
    (magic (blk_data b) = CTX_MAGIC_NORMAL <-> blk_pool b = NormalPool) /\
    calloc_in (blk_pool b) w = Some (Some a, allocated (blk_pool b) w) /\
    heap (allocated (blk_pool b) w) !! a
    = Some {| blk_pool := blk_pool b; blk_data := zero_handle |} /\
    trace w' = trace w ++ [EvCalloc (blk_pool b) (Some a); EvCall OpOpen a] /\
    forall rs w'',
      Forall (fun r => closes a r = false) rs ->
      run rs w' = Some (tt, w'') ->
      exists b', heap w'' !! a = Some b' /\
                 blk_pool b' = blk_pool b /\
                 magic (blk_data b') = magic (blk_data b).
Proof.
  intros Hopen.
  destruct (gcry_mac_open_success _ _ _ _ _ _ Hopen)
    as (s & o & f & Hfl & Hs & Hd & Ho & Hm & Hf & Hroom & He & -> & ->).
  set (secure := Z.testbit flags 0) in *.
  set (a := fresh (dom (heap w))).
  eexists a, _. split; [reflexivity|]. split; [apply fresh_unused|].
  split; [unfold opened; cbn [heap]; apply lookup_insert_eq|].
  cbn [blk_pool blk_data set_u magic stamped].
  split; [destruct secure; simpl; split; congruence|].
  split; [destruct secure; simpl; split; congruence|].
  split; [destruct secure; simpl; split; intros; try reflexivity; discriminate|].
  split; [destruct secure; simpl; split; intros; try reflexivity; discriminate|].
  split.
  { rewrite calloc_in_eq. destruct (room _ w); [congruence|reflexivity]. }
  split; [unfold allocated; cbn [heap]; apply lookup_insert_eq|].
  split; [reflexivity|].
  intros rs w'' Hall Hrun.
  destruct (run_keeps a rs _ _ Hall Hrun _
              ltac:(unfold opened; cbn [heap]; apply lookup_insert_eq))
    as (b' & Hb' & Hp & Hmg & _).
  exists b'. auto.
Qed.

(** C10: a handle returned by a successful open is bound to a registered
    descriptor whose capability table has open, write, setkey, read, verify
    and reset; through every later sequence of calls that does not close
    the handle it stays bound to that same descriptor; hence, at any such
    point, setkey, write, read and verify with arguments that pass the
    generic validation reach the algorithm, and [GCRYCTL_RESET] always
    invokes the algorithm's reset. *)
Theorem opened_handle_complete (algo' flags : Z) (ctx : gcry_ctx_t)
    (w w' : W) (hd : gcry_mac_hd_t) :
  gcry_mac_open algo' flags ctx w = Some ((0, hd), w') ->
  exists a s o,
    hd = Some a /\ In s mac_list /\ ops s = Some o /\
    (is_Some (open o) /\ is_Some (write o) /\ is_Some (setkey o) /\
     is_Some (read o) /\ is_Some (verify o) /\ is_Some (reset o)) /\
    forall rs w'',
      Forall (fun r => closes a r = false) rs ->
      run rs w' = Some (tt, w'') ->
      exists b, heap w'' !! a = Some b /\
                spec (blk_data b) = Some s /\
                bound_to w'' hd o /\
                forwards w'' a b o.
Proof.
  intros Hopen.
  destruct (gcry_mac_open_success _ _ _ _ _ _ Hopen)
    as (s & o & f & Hfl & Hs & Hd & Ho & Hm & Hf & Hroom & He & -> & ->).
  set (a := fresh (dom (heap w))).
  exists a, s, o. split; [reflexivity|].
  split; [apply (spec_from_algo_Some _ _ Hs)|].
  split; [exact Ho|]. split; [apply mandatory_inv, Hm|].
  intros rs w'' Hall Hrun.
  destruct (run_keeps a rs _ _ Hall Hrun _
              ltac:(unfold opened; cbn [heap]; apply lookup_insert_eq))
    as (b' & Hb' & _ & _ & _ & Hsp & _).
  cbn [blk_data set_u spec stamped] in Hsp.
  assert (Hbound : bound_to w'' (Some a) o)
    by (eapply bound_to_intro; eauto).
  exists b'. split; [exact Hb'|]. split; [exact Hsp|].
  split; [exact Hbound|]. apply forwards_intro; assumption.
Qed.

(** ** Further properties of the dispatcher *)

(** *** Registry scans *)

Lemma find_algo_NoDup (l : list spec_t) (s : spec_t) :
  NoDup (map algo l) -> In s l ->
  List.find (fun spec => algo s =? algo spec) l = Some s.
Proof.
  induction l as [|x l IH]; simpl; intros Hnd Hin; [destruct Hin|].
  apply NoDup_cons in Hnd as [Hx Hnd].
  destruct Hin as [->|Hin].
  - rewrite Z.eqb_refl. reflexivity.
  - destruct (Z.eqb_spec (algo s) (algo x)) as [He|_]; [|auto].
    exfalso. apply Hx. rewrite <- He.
    apply list_elem_of_In, in_map, Hin.
Qed.


(** X2: in a registry whose names are pairwise distinct up to case, the
    name of every registered descriptor resolves to that descriptor, and
    [gcry_mac_map_name] maps it to the descriptor's id. *)
Theorem registered_name_resolves (s : spec_t) :
  names_distinct -> In s mac_list ->
  spec_from_name (name s) = Some s /\
  gcry_mac_map_name (Some (name s)) = algo s.
Proof.
  intros Hd Hin.
  apply list_elem_of_In, list_elem_of_lookup in Hin as [i Hi].
  destruct (find_hit (fun spec => stricmp (name s) (name spec) =? 0)
              mac_list s) as [t Et].
  { eapply lookup_In; eauto. }
  { simpl. rewrite stricmp_refl. reflexivity. }
  destruct (find_first _ _ _ Et) as (j & Hj & Hpj & _).
  simpl in Hpj. apply Z.eqb_eq in Hpj.
  assert (i = j) by (eapply Hd; eauto). subst j.
  assert (t = s) by congruence. subst t.
  unfold gcry_mac_map_name, spec_from_name. rewrite Et. auto.
Qed.

(** *** Information queries *)

(** X3: [gcry_mac_algo_info] changes the output slot only when a
    GET_KEYLEN query succeeds, and then to the non-zero key length of the
    algorithm; a TEST_ALGO query given a buffer or a slot fails with
    [GPG_ERR_INV_ARG] whatever the algorithm; and only GET_KEYLEN and
    TEST_ALGO queries can succeed. *)
Theorem algo_info_slot_discipline (algo' what : Z) (buffer : option bytes)
    (nbytes : option N) :
  (snd (gcry_mac_algo_info algo' what buffer nbytes) = nbytes \/
   (what = GCRYCTL_GET_KEYLEN /\ buffer = None /\ nbytes <> None /\
    fst (gcry_mac_algo_info algo' what buffer nbytes) = 0 /\
    gcry_mac_get_algo_keylen algo' <> 0%N /\
    snd (gcry_mac_algo_info algo' what buffer nbytes)
    = Some (gcry_mac_get_algo_keylen algo'))) /\
  (what = GCRYCTL_TEST_ALGO ->
   non_null buffer = true \/ non_null nbytes = true ->
   gcry_mac_algo_info algo' what buffer nbytes
   = (gcry_error GPG_ERR_INV_ARG, nbytes)) /\
  (fst (gcry_mac_algo_info algo' what buffer nbytes) = 0 ->
   what = GCRYCTL_GET_KEYLEN \/ what = GCRYCTL_TEST_ALGO).
Proof.
  unfold gcry_mac_algo_info.
  destruct (Z.eqb_spec what GCRYCTL_GET_KEYLEN) as [Hk|Hk].
  - split; [|split; [|auto]].
    + destruct buffer as [bf|]; simpl; [auto|].
      destruct nbytes as [n|]; simpl; [|auto].
      destruct (N.ltb_spec 0 (gcry_mac_get_algo_keylen algo')) as [Hlt|Hge];
        simpl; [|auto].
      right. repeat split; auto; try discriminate. lia.
    + intros Ht. rewrite Hk in Ht. discriminate.
  - destruct (Z.eqb_spec what GCRYCTL_TEST_ALGO) as [Ht|Ht].
    + split; [|split; [|auto]].
      * destruct (non_null buffer || non_null nbytes); auto.
      * intros _ H. apply orb_true_iff in H. rewrite H. reflexivity.
    + split; [auto|]. split; [contradiction|].
      simpl. intros H. apply gpg_error_zero_iff in H. discriminate.
Qed.

(** *** Flags *)

Lemma flag_test_passes_iff (flags : Z) :
  Z.land flags (Z.lnot GCRY_MAC_FLAG_SECURE) = 0 <-> flags = 0 \/ flags = 1.
Proof.
  split; [|intros [->| ->]; reflexivity].
  intros H.
  assert (Hb : flags = Z.b2z (Z.testbit flags 0)).
  { apply Z.bits_inj'. intros n Hn.
    destruct (Z.eq_dec n 0) as [->|Hn0].
    - rewrite Z.b2z_bit0. reflexivity.
    - assert (Hz : Z.testbit (Z.land flags (Z.lnot GCRY_MAC_FLAG_SECURE)) n
                   = false) by (rewrite H; apply Z.bits_0).
      rewrite Z.land_spec, Z.lnot_spec in Hz by lia.
      change GCRY_MAC_FLAG_SECURE with (2 ^ 0) in Hz.
      rewrite Z.pow2_bits_false in Hz by lia.
      rewrite andb_true_r in Hz. rewrite Hz.
      destruct (Z.testbit flags 0); simpl.
      + change 1 with (2 ^ 0). rewrite Z.pow2_bits_false by lia. reflexivity.
      + rewrite Z.bits_0. reflexivity. }
  destruct (Z.testbit flags 0); simpl in Hb; auto.
Qed.

(** X4: the only flag words [gcry_mac_open] accepts are 0 and
    [GCRY_MAC_FLAG_SECURE]: every other one is answered with
    [GPG_ERR_INV_ARG], a NULL handle and an untouched world, whatever the
    algorithm id, and these two are passed on to [mac_open], the second as
    a request for secure memory. *)
Theorem accepted_flag_words (algo' flags : Z) (ctx : gcry_ctx_t) (w : W) :
  (flags <> 0 -> flags <> GCRY_MAC_FLAG_SECURE ->
   gcry_mac_open algo' flags ctx w
   = Some ((gpg_error GPG_ERR_INV_ARG, None), w)) /\
  (flags = 0 \/ flags = GCRY_MAC_FLAG_SECURE ->
   gcry_mac_open algo' flags ctx w
   = (r <- mac_open None algo' (flags =? GCRY_MAC_FLAG_SECURE) ctx ;;
      ret (gpg_error (fst r), if negb (fst r =? 0) then None else snd r)) w).
Proof.
  split.
  - intros H0 H1. unfold gcry_mac_open.
    destruct (Z.eqb_spec (Z.land flags (Z.lnot GCRY_MAC_FLAG_SECURE)) 0)
      as [He|_]; [|reflexivity].
    apply flag_test_passes_iff in He. destruct He; contradiction.
  - intros [->| ->]; reflexivity.
Qed.

(** *** What one call changes *)

Lemma call_touched_at (op : op_id) (hd : gcry_mac_hd_t)
    (f : mac_view context -> gcry_err_code_t * context) (w w' : W)
    (e : gcry_err_code_t) :
  call op hd f w = Some (e, w') -> touched_at hd w w'.
Proof.
  destruct hd as [a|]; [|discriminate].
  destruct (heap w !! a) as [b|] eqn:Hl.
  - rewrite (call_eq _ _ _ _ _ Hl). intros [= _ <-]. right. eauto 10.
  - unfold call, bind, load. rewrite Hl. discriminate.
Qed.

Lemma call_read_touched_at (hd : gcry_mac_hd_t)
    (f : mac_view context -> bytes -> N -> gcry_err_code_t * context * (bytes * N))
    (outbuf : bytes) (outlen : N) (w w' : W)
    (r : gcry_err_code_t * (option bytes * option N)) :
  call_read hd f outbuf outlen w = Some (r, w') -> touched_at hd w w'.
Proof.
  destruct hd as [a|]; [|discriminate].
  destruct (heap w !! a) as [b|] eqn:Hl.
  - rewrite (call_read_eq _ _ _ _ _ _ Hl). intros [= _ <-]. right. eauto 10.
  - unfold call_read, bind, load. rewrite Hl. discriminate.
Qed.

(** A dispatch request either leaves the world alone or runs one callback
    on the handle it is about. *)
Lemma perform_touched_at (r : request) (w w' : W) :
  is_dispatch r = true -> perform r w = Some (tt, w') ->
  touched_at (target r) w w'.
Proof.
  intros Hd.
  destruct r as [al fl cx|hd|hd k n|hd k n|hd k n|hd bf n|hd bf n|hd c bf n];
    try discriminate; simpl; unfold bind at 1.
  - unfold gcry_mac_setkey, bind at 1.
    destruct (mac_setkey hd k n w) as [[e w1]|] eqn:E; [|discriminate].
    intros [= <-]. revert E. unfold mac_setkey. after_hd_ops hd w.
    destruct (setkey o) as [f|]; [|intros [= _ <-]; left; reflexivity].
    destruct ((0 <? n)%N && negb (non_null k));
      [intros [= _ <-]; left; reflexivity|].
    apply call_touched_at.
  - unfold gcry_mac_setiv, bind at 1.
    destruct (mac_setiv hd k n w) as [[e w1]|] eqn:E; [|discriminate].
    intros [= <-]. revert E. unfold mac_setiv. after_hd_ops hd w.
    destruct (setiv o) as [f|]; [|intros [= _ <-]; left; reflexivity].
    destruct ((0 <? n)%N && negb (non_null k));
      [intros [= _ <-]; left; reflexivity|].
    apply call_touched_at.
  - unfold gcry_mac_write, bind at 1.
    destruct (mac_write hd k n w) as [[e w1]|] eqn:E; [|discriminate].
    intros [= <-]. revert E. unfold mac_write. after_hd_ops hd w.
    destruct (write o) as [f|]; [|intros [= _ <-]; left; reflexivity].
    destruct ((0 <? n)%N && negb (non_null k));
      [intros [= _ <-]; left; reflexivity|].
    apply call_touched_at.
  - unfold gcry_mac_read, bind at 1.
    destruct (mac_read hd bf n w) as [[e w1]|] eqn:E; [|discriminate].
    intros [= <-]. revert E. unfold mac_read.
    destruct bf as [buf|], n as [len|];
      try (intros [= _ <-]; left; reflexivity).
    destruct (len =? 0)%N; [intros [= _ <-]; left; reflexivity|].
    after_hd_ops hd w.
    destruct (read o) as [f|]; [|intros [= _ <-]; left; reflexivity].
    apply call_read_touched_at.
  - unfold gcry_mac_verify, bind at 1.
    destruct (mac_verify hd bf n w) as [[e w1]|] eqn:E; [|discriminate].
    intros [= <-]. revert E. unfold mac_verify.
    destruct bf as [b|]; [|intros [= _ <-]; left; reflexivity].
    destruct (n =? 0)%N; [intros [= _ <-]; left; reflexivity|].
    after_hd_ops hd w.
    destruct (verify o) as [f|]; [|intros [= _ <-]; left; reflexivity].
    apply call_touched_at.
  - unfold gcry_mac_ctl, bind at 1.
    destruct (c =? GCRYCTL_RESET).
    + destruct (mac_reset hd w) as [[e w1]|] eqn:E; [|discriminate].
      intros [= <-]. revert E. unfold mac_reset. after_hd_ops hd w.
      destruct (reset o) as [f|]; [|intros [= _ <-]; left; reflexivity].
      apply call_touched_at.
    + intros [= <-]. left. reflexivity.
Qed.


(** X6: a request leaves every block other than the one it is about exactly
    as it was: a dispatch call or a close on one handle does not change
    another handle's contents, and an open, successful or not, changes no
    block that was allocated before. *)
Theorem handle_isolation (r : request) (w w' : W) (a : loc)
    (b : block context) :
  perform r w = Some (tt, w') ->
  heap w !! a = Some b ->
  target r <> Some a ->
  heap w' !! a = Some b.
Proof.
  intros Hp Hl Hne.
  destruct (is_dispatch r) eqn:Hd.
  - destruct (perform_touched_at r w w' Hd Hp)
      as [->|(op & a0 & b0 & c & Htg & _ & ->)]; [exact Hl|].
    unfold called. cbn [heap]. rewrite lookup_insert_ne; [exact Hl|].
    congruence.
  - destruct r as [al fl cx|hd| | | | | | ]; try discriminate;
      simpl in Hp, Hne.
    + unfold bind in Hp.
      destruct (gcry_mac_open al fl cx w) as [[r w1]|] eqn:E; [|discriminate].
      injection Hp as <-. revert E. rewrite gcry_mac_open_eq.
      destruct (negb _); [intros [= _ <-]; exact Hl|]. cbv zeta.
      destruct (spec_from_algo al) as [s|]; [|intros [= _ <-]; exact Hl].
      destruct (flags_disabled s); [intros [= _ <-]; exact Hl|].
      destruct (ops s) as [o|]; [|intros [= _ <-]; exact Hl].
      destruct (open o) as [f|]; [|intros [= _ <-]; exact Hl].
      destruct (mandatory o); [|intros [= _ <-]; exact Hl].
      destruct (room _ w); [intros [= _ <-]; exact Hl|]. cbv zeta.
      destruct (Z.eqb _ 0); intros [= _ <-]; [|exact Hl].
      unfold opened. cbn [heap]. rewrite lookup_insert_ne; [exact Hl|].
      intros Heq. pose proof (fresh_unused w) as Hf. rewrite Heq in Hf.
      congruence.
    + unfold gcry_mac_close in Hp.
      destruct (mac_close_heap _ _ _ Hp) as (a0 & -> & Hh).
      rewrite Hh, lookup_delete_ne; [exact Hl|congruence].
Qed.

(** *** Open and close together *)



(** X8: when the pool asked for has no room, opening an admissible
    algorithm fails with the out-of-memory code, leaves NULL in the output
    slot and the heap as it was, and does not call into the algorithm: the
    only event is the failed allocation.  The room left in the other pool
    plays no part. *)
Theorem open_out_of_memory (algo' flags : Z) (ctx : gcry_ctx_t) (w : W)
    (s : spec_t) (o : ops_t) :
  flags = 0 \/ flags = GCRY_MAC_FLAG_SECURE ->
  spec_from_algo algo' = Some s -> flags_disabled s = false ->
  ops s = Some o -> mandatory o = true ->
  room (pool_of (flags =? GCRY_MAC_FLAG_SECURE)) w = O ->
  exists w',
    gcry_mac_open algo' flags ctx w
    = Some ((gpg_error GPG_ERR_ENOMEM, None), w') /\
    heap w' = heap w /\
    trace w' = trace w
               ++ [EvCalloc (pool_of (flags =? GCRY_MAC_FLAG_SECURE)) None].
Proof.
  intros Hfl Hs Hd Ho Hm Hroom.
  destruct (mandatory_inv o Hm) as ([f Hf] & _).
  rewrite gcry_mac_open_eq.
  assert (Hsec : Z.testbit flags 0 = (flags =? GCRY_MAC_FLAG_SECURE))
    by (destruct Hfl as [->| ->]; reflexivity).
  assert (Hok : (Z.land flags (Z.lnot GCRY_MAC_FLAG_SECURE) =? 0) = true)
    by (destruct Hfl as [->| ->]; reflexivity).
  rewrite Hok. cbn [negb]. cbv zeta. rewrite Hs, Hd, Ho, Hf, Hm, Hsec, Hroom.
  eexists. split; [reflexivity|]. split; reflexivity.
Qed.

(** X9: a handle that was closed is dangling: closing it again, or calling
    setkey, setiv, write, reset, or read or verify with arguments that pass
    the generic validation, is undefined; read and verify with arguments
    that fail the validation still answer [GPG_ERR_INV_ARG], since they
    do not look at the handle. *)
Theorem use_after_close (hd : gcry_mac_hd_t) (w w' : W) :
  gcry_mac_close hd w = Some (tt, w') ->
  gcry_mac_close hd w' = None /\
  (forall key keylen, gcry_mac_setkey hd key keylen w' = None) /\
  (forall iv ivlen, gcry_mac_setiv hd iv ivlen w' = None) /\
  (forall inbuf inlen, gcry_mac_write hd inbuf inlen w' = None) /\
  (forall buffer buflen,
     gcry_mac_ctl hd GCRYCTL_RESET buffer buflen w' = None) /\
  (forall outbuf outlen, outlen <> 0%N ->
     gcry_mac_read hd (Some outbuf) (Some outlen) w' = None) /\
  (forall buf buflen, buflen <> 0%N ->
     gcry_mac_verify hd (Some buf) buflen w' = None) /\
  (forall outbuf, gcry_mac_read hd outbuf (Some 0%N) w'
                  = Some ((gpg_error GPG_ERR_INV_ARG, (outbuf, Some 0%N)), w')) /\
  (forall buflen, gcry_mac_verify hd None buflen w'
                  = Some (gpg_error GPG_ERR_INV_ARG, w')).
Proof.
  intros Hc. unfold gcry_mac_close in Hc.
  destruct (mac_close_heap _ _ _ Hc) as (a & -> & Hh).
  assert (Hgone : heap w' !! a = None)
    by (rewrite Hh; apply lookup_delete_eq).
  assert (Hops : hd_ops (Some a) w' = None)
    by (unfold hd_ops, bind, load; rewrite Hgone; reflexivity).
  repeat split.
  - unfold gcry_mac_close, mac_close, bind. rewrite Hops. reflexivity.
  - intros. unfold gcry_mac_setkey, mac_setkey, bind. rewrite Hops. reflexivity.
  - intros. unfold gcry_mac_setiv, mac_setiv, bind. rewrite Hops. reflexivity.
  - intros. unfold gcry_mac_write, mac_write, bind. rewrite Hops. reflexivity.
  - intros. unfold gcry_mac_ctl, mac_reset, bind. rewrite Z.eqb_refl, Hops.
    reflexivity.
  - intros outbuf outlen Hn. apply N.eqb_neq in Hn.
    unfold gcry_mac_read, mac_read, bind. rewrite Hn, Hops. reflexivity.
  - intros buf buflen Hn. apply N.eqb_neq in Hn.
    unfold gcry_mac_verify, mac_verify, bind. rewrite Hn, Hops. reflexivity.
  - intros outbuf. unfold gcry_mac_read, mac_read.
    destruct outbuf; reflexivity.
Qed.

(** *** Control commands *)

(** X10: [gcry_mac_ctl] answers every command other than [GCRYCTL_RESET]
    with [GPG_ERR_INV_OP] without looking at the handle (which may be NULL
    or dangling); for [GCRYCTL_RESET] the buffer and its length are
    ignored; and on a live handle whose capability table has no reset the
    command succeeds and nothing is invoked. *)
Theorem ctl_contract (hd : gcry_mac_hd_t) (w : W) :
  (forall cmd buffer buflen, cmd <> GCRYCTL_RESET ->
     gcry_mac_ctl hd cmd buffer buflen w
     = Some (gcry_error GPG_ERR_INV_OP, w)) /\
  (forall buffer buflen,
     gcry_mac_ctl hd GCRYCTL_RESET buffer buflen w
     = gcry_mac_ctl hd GCRYCTL_RESET None 0 w) /\
  (forall o buffer buflen, bound_to w hd o -> reset o = None ->
     gcry_mac_ctl hd GCRYCTL_RESET buffer buflen w = Some (0, w)).
Proof.
  split; [|split].
  - intros cmd buffer buflen Hc. apply Z.eqb_neq in Hc.
    unfold gcry_mac_ctl, bind. rewrite Hc. reflexivity.
  - reflexivity.
  - intros o buffer buflen Hb Hr. unfold bound_to in Hb.
    unfold gcry_mac_ctl, mac_reset, bind. rewrite Z.eqb_refl, Hb, Hr.
    reflexivity.
Qed.

(** *** Success comes from the algorithm *)

Lemma call_success_inv (op : op_id) (hd : gcry_mac_hd_t)
    (f : mac_view context -> gcry_err_code_t * context) (w w' : W) :
  (err <- call op hd f ;; ret (gpg_error err)) w = Some (0, w') ->
  exists a b, hd = Some a /\ heap w !! a = Some b /\
              fst (f (view (blk_data b))) = 0 /\
              w' = called op a b (snd (f (view (blk_data b)))) w.
Proof.
  destruct hd as [a|]; [|discriminate].
  destruct (heap w !! a) as [b|] eqn:Hl.
  - unfold bind. rewrite (call_eq _ _ _ _ _ Hl). unfold ret.
    intros [= He <-]. apply (proj1 (gpg_error_zero_iff _)) in He.
    exists a, b. auto.
  - unfold bind, call, bind, load. rewrite Hl. discriminate.
Qed.

(** X11: setkey, setiv and write report success only if the handle is
    live, its descriptor provides the operation, the arguments pass the
    generic validation, and the algorithm's entry point ran and returned
    0; the world is then the one the algorithm left. *)
Theorem update_success_inv (hd : gcry_mac_hd_t) (p : option bytes) (n : N)
    (w w' : W) :
  (gcry_mac_setkey hd p n w = Some (0, w') ->
   ran_ok OpSetkey setkey hd p n w w') /\
  (gcry_mac_setiv hd p n w = Some (0, w') ->
   ran_ok OpSetiv setiv hd p n w w') /\
  (gcry_mac_write hd p n w = Some (0, w') ->
   ran_ok OpWrite write hd p n w w').
Proof.
  assert (Hargs : forall n' (p' : option bytes),
             (0 <? n')%N && negb (non_null p') = false ->
             n' = 0%N \/ is_Some p').
  { intros n' [x|] H; [right; eauto|]. left.
    rewrite andb_true_r in H. apply N.ltb_ge in H. lia. }
  split; [|split]; intros H.
  - unfold gcry_mac_setkey, mac_setkey in H. unfold bind at 1 2 in H.
    destruct (hd_ops hd w) as [[o w1]|] eqn:E; [|discriminate].
    pose proof (hd_ops_same_world _ _ _ _ E). subst w1.
    destruct (setkey o) as [f|] eqn:Ef; [|discriminate H].
    destruct ((0 <? n)%N && negb (non_null p)) eqn:Ea; [discriminate H|].
    destruct (call_success_inv OpSetkey hd (fun v => f v p n) w w')
      as (a & b & -> & Hl & He & ->).
    { unfold bind at 1. exact H. }
    exists a, b, o, f. repeat split; auto.
  - unfold gcry_mac_setiv, mac_setiv in H. unfold bind at 1 2 in H.
    destruct (hd_ops hd w) as [[o w1]|] eqn:E; [|discriminate].
    pose proof (hd_ops_same_world _ _ _ _ E). subst w1.
    destruct (setiv o) as [f|] eqn:Ef; [|discriminate H].
    destruct ((0 <? n)%N && negb (non_null p)) eqn:Ea; [discriminate H|].
    destruct (call_success_inv OpSetiv hd (fun v => f v p n) w w')
      as (a & b & -> & Hl & He & ->).
    { unfold bind at 1. exact H. }
    exists a, b, o, f. repeat split; auto.
  - unfold gcry_mac_write, mac_write in H. unfold bind at 1 2 in H.
    destruct (hd_ops hd w) as [[o w1]|] eqn:E; [|discriminate].
    pose proof (hd_ops_same_world _ _ _ _ E). subst w1.
    destruct (write o) as [f|] eqn:Ef; [|discriminate H].
    destruct ((0 <? n)%N && negb (non_null p)) eqn:Ea; [discriminate H|].
    destruct (call_success_inv OpWrite hd (fun v => f v p n) w w')
      as (a & b & -> & Hl & He & ->).
    { unfold bind at 1. exact H. }
    exists a, b, o, f. repeat split; auto.
Qed.

(** X12: verify reports success only if it was given a non-NULL buffer of
    non-zero length on a live handle whose descriptor provides verify, and
    the algorithm's verify ran on that buffer and returned 0: the
    dispatcher never vouches for a tag on its own. *)
Theorem verify_success_inv (hd : gcry_mac_hd_t) (buf : option bytes)
    (buflen : N) (w w' : W) :
  gcry_mac_verify hd buf buflen w = Some (0, w') ->
  exists a b o f bs,
    hd = Some a /\ heap w !! a = Some b /\ bound_to w hd o /\
    verify o = Some f /\ buf = Some bs /\ buflen <> 0%N /\
    fst (f (view (blk_data b)) bs buflen) = 0 /\
    w' = called OpVerify a b (snd (f (view (blk_data b)) bs buflen)) w /\
    trace w' = trace w ++ [EvCall OpVerify a].
Proof.
  intros H. unfold gcry_mac_verify, mac_verify in H.
  destruct buf as [bs|]; [|discriminate H].
  destruct (N.eqb_spec buflen 0) as [->|Hn]; [discriminate H|].
  unfold bind at 1 2 in H.
  destruct (hd_ops hd w) as [[o w1]|] eqn:E; [|discriminate].
  pose proof (hd_ops_same_world _ _ _ _ E). subst w1.
  destruct (verify o) as [f|] eqn:Ef; [|discriminate H].
  destruct (call_success_inv OpVerify hd (fun v => f v bs buflen) w w')
    as (a & b & -> & Hl & He & ->).
  { unfold bind at 1. exact H. }
  exists a, b, o, f, bs. repeat split; auto.
Qed.

(** X13: read reports success only if it was given a buffer and a non-zero
    capacity on a live handle whose descriptor provides read, and the
    algorithm's read ran and returned 0; the buffer contents and the
    length handed back are exactly the algorithm's. *)
Theorem read_success_inv (hd : gcry_mac_hd_t) (outbuf : option bytes)
    (outlen : option N) (w w' : W) (out : option bytes * option N) :
  gcry_mac_read hd outbuf outlen w = Some ((0, out), w') ->
  exists a b o f bs n,
    hd = Some a /\ heap w !! a = Some b /\ bound_to w hd o /\
    read o = Some f /\ outbuf = Some bs /\ outlen = Some n /\ n <> 0%N /\
    fst (fst (f (view (blk_data b)) bs n)) = 0 /\
    out = (Some (fst (snd (f (view (blk_data b)) bs n))),
           Some (snd (snd (f (view (blk_data b)) bs n)))) /\
    w' = called OpRead a b (snd (fst (f (view (blk_data b)) bs n))) w.
Proof.
  intros H. unfold gcry_mac_read, mac_read in H.
  assert (Habs : forall x (w0 : W),
             Some ((gpg_error GPG_ERR_INV_ARG, x), w0) = Some ((0, out), w')
             -> False).
  { intros x w0 H0. discriminate H0. }
  destruct outbuf as [bs|], outlen as [n|];
    try (exfalso; revert H; unfold bind, ret; cbn [fst snd]; apply Habs).
  destruct (N.eqb_spec n 0) as [->|Hn];
    [exfalso; revert H; unfold bind, ret; cbn [fst snd]; apply Habs|].
  unfold bind at 1 2 in H.
  destruct (hd_ops hd w) as [[o w1]|] eqn:E; [|discriminate].
  pose proof (hd_ops_same_world _ _ _ _ E). subst w1.
  destruct (read o) as [f|] eqn:Ef;
    [|exfalso; revert H; unfold ret; cbn [fst snd]; apply Habs].
  destruct (bound_to_inv w hd o E) as (a & b & s & -> & Hl & _ & _).
  rewrite (call_read_eq _ _ _ _ _ _ Hl) in H. cbv zeta in H.
  unfold ret in H. cbn [fst snd] in H.
  injection H as He <- <-. apply (proj1 (gpg_error_zero_iff _)) in He.
  exists a, b, o, f, bs, n. repeat split; auto.
Qed.

(** *** What a successful open tells *)

(** X14: an algorithm that can be opened passes the availability test:
    after a successful open [check_mac_algo] and the TEST_ALGO query
    succeed for the id, and the id's name is the name of the descriptor
    the handle is bound to. *)
Theorem open_implies_available (algo' flags : Z) (ctx : gcry_ctx_t)
    (w w' : W) (hd : gcry_mac_hd_t) :
  gcry_mac_open algo' flags ctx w = Some ((0, hd), w') ->
  check_mac_algo algo' = 0 /\
  gcry_mac_algo_info algo' GCRYCTL_TEST_ALGO None None = (0, None) /\
  exists a b s,
    hd = Some a /\ heap w' !! a = Some b /\
    spec (blk_data b) = Some s /\
    spec_from_algo algo' = Some s /\
    gcry_mac_algo_name algo' = name s.
Proof.
  intros Hopen.
  destruct (gcry_mac_open_success _ _ _ _ _ _ Hopen)
    as (s & o & f & Hfl & Hs & Hd & Ho & Hm & Hf & Hroom & He & -> & ->).
  assert (Hc : check_mac_algo algo' = 0)
    by (unfold check_mac_algo; rewrite Hs, Hd; reflexivity).
  split; [exact Hc|]. split.
  { unfold gcry_mac_algo_info. simpl. rewrite Hc. reflexivity. }
  eexists _, _, s. split; [reflexivity|].
  split; [unfold opened; cbn [heap]; apply lookup_insert_eq|].
  split; [reflexivity|]. split; [exact Hs|].
  unfold gcry_mac_algo_name. rewrite Hs. reflexivity.
Qed.

(** X15: a successful open stamps the handle before it calls into the
    algorithm: the algorithm's open sees the tag, the algorithm id, the
    associated context and zeroed algorithm state, and what it leaves
    becomes the handle's state; from then on, through every sequence of
    calls that does not close the handle, the handle's copy of the
    algorithm id is the id asked for, which is its descriptor's id, and
    the associated context is the one given to open. *)
Theorem opened_handle_fields (algo' flags : Z) (ctx : gcry_ctx_t)
    (w w' : W) (hd : gcry_mac_hd_t) :
  gcry_mac_open algo' flags ctx w = Some ((0, hd), w') ->
  exists a b s o f,
    hd = Some a /\ heap w' !! a = Some b /\
    spec_from_algo algo' = Some s /\ algo s = algo' /\
    ops s = Some o /\ open o = Some f /\
    f {| v_magic := if Z.testbit flags 0 then CTX_MAGIC_SECURE
                    else CTX_MAGIC_NORMAL;
         v_algo := algo'; v_gcry_ctx := ctx; v_u := zero_context |}
    = (0, u (blk_data b)) /\
    forall rs w'',
      Forall (fun r => closes a r = false) rs ->
      run rs w' = Some (tt, w'') ->
      exists b', heap w'' !! a = Some b' /\
                 h_algo (blk_data b') = algo' /\
                 spec (blk_data b') = Some s /\
                 gcry_ctx (blk_data b') = ctx.
Proof.
  intros Hopen.
  destruct (gcry_mac_open_success _ _ _ _ _ _ Hopen)
    as (s & o & f & Hfl & Hs & Hd & Ho & Hm & Hf & Hroom & He & -> & ->).
  set (a := fresh (dom (heap w))).
  assert (Hl : heap (opened (pool_of (Z.testbit flags 0))
                       (set_u (stamped s algo' (Z.testbit flags 0) ctx)
                          (snd (f (view (stamped s algo' (Z.testbit flags 0) ctx)))))
                       w) !! a
               = Some {| blk_pool := pool_of (Z.testbit flags 0);
                         blk_data :=
                           set_u (stamped s algo' (Z.testbit flags 0) ctx)
                             (snd (f (view (stamped s algo' (Z.testbit flags 0) ctx)))) |})
    by (unfold opened; cbn [heap]; apply lookup_insert_eq).
  eexists a, _, s, o, f. split; [reflexivity|].
  split; [exact Hl|]. split; [exact Hs|].
  split; [apply (spec_from_algo_Some _ _ Hs)|].
  split; [exact Ho|]. split; [exact Hf|].
  split.
  { cbn [blk_data set_u u]. unfold view, stamped in He |- *.
    cbn [magic h_algo gcry_ctx u] in He |- *.
    match type of He with
    | fst ?r = 0 => pose proof (surjective_pairing r) as Hp
    end.
    rewrite He in Hp. exact Hp. }
  intros rs w'' Hall Hrun.
  destruct (run_keeps a rs _ _ Hall Hrun _ Hl)
    as (b' & Hb' & _ & _ & Hal & Hsp & Hcx).
  exists b'. cbn [blk_data set_u stamped h_algo spec gcry_ctx] in Hal, Hsp, Hcx.
  auto.
Qed.

End Dispatcher.

(** ** The statements on the sample registry *)

Lemma names_distinctb_correct {context : Type}
    (l : list (gcry_mac_spec_t context)) :
  names_distinctb l = true -> names_distinct l.
Proof.
  unfold names_distinct.
  induction l as [|x l IH]; intros Hb i j s t Hi Hj H.
  - destruct i; discriminate.
  - simpl in Hb. apply andb_true_iff in Hb as [Hx Hl].
    rewrite forallb_forall in Hx.
    destruct i as [|i], j as [|j]; simpl in Hi, Hj.
    + reflexivity.
    + injection Hi as <-.
      specialize (Hx t (lookup_In _ _ _ Hj)). unfold name_differs in Hx.
      rewrite H in Hx. discriminate.
    + injection Hj as <-.
      specialize (Hx s (lookup_In _ _ _ Hi)). unfold name_differs in Hx.
      rewrite H, andb_false_r in Hx. discriminate.
    + f_equal. eapply IH; eauto.
Qed.

(** *** The table of a build configuration *)

Lemma mac_list_table_sublist {context : Type} (cfg : build_config)
    (d : hmac_type_specs context) :
  mac_list_table cfg d `sublist_of` mac_list_table all_features d.
Proof.
  assert (Hflag : forall (b : bool) (l : list (gcry_mac_spec_t context)),
             (if b then l else []) `sublist_of` l).
  { intros [] l; [reflexivity|apply sublist_nil_l]. }
  unfold mac_list_table.
  cbn [all_features USE_SHA1 USE_SHA256 USE_SHA512 USE_GOST_R_3411_94
       USE_GOST_R_3411_12 USE_WHIRLPOOL USE_RMD160 USE_TIGER USE_MD5 USE_MD4].
  do 9 (apply sublist_app; [apply Hflag|]). apply Hflag.
Qed.

Lemma names_distinctb_sublist {context : Type}
    (l1 l2 : list (gcry_mac_spec_t context)) :
  l1 `sublist_of` l2 -> names_distinctb l2 = true -> names_distinctb l1 = true.
Proof.
  induction 1 as [|x l1 l2 Hsub IH|x l1 l2 Hsub IH]; simpl; intros Hb.
  - reflexivity.
  - apply andb_true_iff in Hb as [Hx Hl]. rewrite IH by exact Hl.
    rewrite andb_true_r. rewrite forallb_forall in Hx |- *.
    intros t Ht. apply Hx, list_elem_of_In.
    eapply elem_of_sublist; [|exact Hsub]. apply list_elem_of_In, Ht.
  - apply andb_true_iff in Hb as [_ Hl]. auto.
Qed.

(** Whatever is compiled in, the registry has distinct names and is well
    formed when the full table is. *)
Lemma table_names_distinct {context : Type} (cfg : build_config)
    (d : hmac_type_specs context) :
  names_distinctb (mac_list_table all_features d) = true ->
  names_distinct (mac_list_table cfg d).
Proof.
  intros H. apply names_distinctb_correct.
  eapply names_distinctb_sublist; [apply mac_list_table_sublist|exact H].
Qed.

Lemma table_registry_wf {context : Type} (cfg : build_config)
    (d : hmac_type_specs context) :
  registry_wf (mac_list_table all_features d) ->
  registry_wf (mac_list_table cfg d).
Proof.
  unfold registry_wf. rewrite !Forall_forall. intros H s Hs.
  apply H. eapply elem_of_sublist; [exact Hs|apply mac_list_table_sublist].
Qed.

(** *** Registries compared *)

Lemma find_reflag {context : Type} (p : gcry_mac_spec_t context -> bool)
    (f : gcry_mac_spec_t context -> bool) (l : list (gcry_mac_spec_t context)) :
  (forall s b, p (set_disabled b s) = p s) ->
  List.find p (reflag f l)
  = option_map (fun s => set_disabled (f s) s) (List.find p l).
Proof.
  intros Hp. induction l as [|x l IH]; simpl; [reflexivity|].
  rewrite Hp. destruct (p x); [reflexivity|exact IH].
Qed.

Lemma spec_from_algo_reflag {context : Type}
    (f : gcry_mac_spec_t context -> bool) (l : list (gcry_mac_spec_t context))
    (id : Z) :
  spec_from_algo (reflag f l) id
  = option_map (fun s => set_disabled (f s) s) (spec_from_algo l id).
Proof. unfold spec_from_algo. apply find_reflag. reflexivity. Qed.

Lemma spec_from_name_reflag {context : Type}
    (f : gcry_mac_spec_t context -> bool) (l : list (gcry_mac_spec_t context))
    (n : string) :
  spec_from_name (reflag f l) n
  = option_map (fun s => set_disabled (f s) s) (spec_from_name l n).
Proof. unfold spec_from_name. apply find_reflag. reflexivity. Qed.

(** X16: the disabled flag matters to the availability test only: whatever
    the flags of a registry are changed to, the name of an id, the id of a
    name, the MAC length, the key length and the GET_KEYLEN query are
    unchanged, while [check_mac_algo] for a registered id succeeds exactly
    when the new flag of the descriptor it resolves to is off. *)
Theorem introspection_ignores_disabled {context : Type}
    (f : gcry_mac_spec_t context -> bool) (l : list (gcry_mac_spec_t context)) :
  (forall id, gcry_mac_algo_name (reflag f l) id = gcry_mac_algo_name l id) /\
  (forall n, gcry_mac_map_name (reflag f l) n = gcry_mac_map_name l n) /\
  (forall id, gcry_mac_get_algo_maclen (reflag f l) id
              = gcry_mac_get_algo_maclen l id) /\
  (forall id, gcry_mac_get_algo_keylen (reflag f l) id
              = gcry_mac_get_algo_keylen l id) /\
  (forall id buffer nbytes,
     gcry_mac_algo_info (reflag f l) id GCRYCTL_GET_KEYLEN buffer nbytes
     = gcry_mac_algo_info l id GCRYCTL_GET_KEYLEN buffer nbytes) /\
  (forall id s, spec_from_algo l id = Some s ->
     check_mac_algo (reflag f l) id
     = if f s then GPG_ERR_MAC_ALGO else 0).
Proof.
  assert (Hk : forall id, gcry_mac_get_algo_keylen (reflag f l) id
                          = gcry_mac_get_algo_keylen l id).
  { intros id. unfold gcry_mac_get_algo_keylen.
    rewrite spec_from_algo_reflag.
    destruct (spec_from_algo l id); reflexivity. }
  split; [|split; [|split; [|split; [|split]]]].
  - intros id. unfold gcry_mac_algo_name. rewrite spec_from_algo_reflag.
    destruct (spec_from_algo l id); reflexivity.
  - intros [n|]; [|reflexivity]. unfold gcry_mac_map_name.
    rewrite spec_from_name_reflag.
    destruct (spec_from_name l n); reflexivity.
  - intros id. unfold gcry_mac_get_algo_maclen.
    rewrite spec_from_algo_reflag.
    destruct (spec_from_algo l id); reflexivity.
  - exact Hk.
  - intros id buffer nbytes. unfold gcry_mac_algo_info. simpl.
    rewrite Hk. reflexivity.
  - intros id s Hs. unfold check_mac_algo.
    rewrite spec_from_algo_reflag, Hs. simpl.
    destruct (f s); reflexivity.
Qed.

(** X17: leaving algorithms out of the build does not change what the
    remaining ones resolve to: when the ids of the full table are pairwise
    distinct, an id that resolves in the table of some build configuration
    resolves to the same descriptor, and has the same name, in the full
    table; and an id unknown to the full table is unknown to every
    build. *)
Theorem table_lookup_stable {context : Type} (cfg : build_config)
    (d : hmac_type_specs context) :
  ids_distinct (mac_list_table all_features d) ->
  (forall id s,
     spec_from_algo (mac_list_table cfg d) id = Some s ->
     spec_from_algo (mac_list_table all_features d) id = Some s /\
     gcry_mac_algo_name (mac_list_table all_features d) id
     = gcry_mac_algo_name (mac_list_table cfg d) id) /\
  (forall id,
     spec_from_algo (mac_list_table all_features d) id = None ->
     spec_from_algo (mac_list_table cfg d) id = None /\
     gcry_mac_algo_name (mac_list_table cfg d) id = "?"%string).
Proof.
  intros Hnd. split.
  - intros id s Hs.
    destruct (spec_from_algo_Some _ _ _ Hs) as [Hin <-].
    assert (Hfull : spec_from_algo (mac_list_table all_features d) (algo s)
                    = Some s).
    { apply find_algo_NoDup; [exact Hnd|].
      apply list_elem_of_In. eapply elem_of_sublist.
      - apply list_elem_of_In, Hin.
      - apply mac_list_table_sublist. }
    split; [exact Hfull|].
    unfold gcry_mac_algo_name. rewrite Hfull, Hs. reflexivity.
  - intros id Hn.
    assert (Hc : spec_from_algo (mac_list_table cfg d) id = None).
    { apply spec_from_algo_None. intros s Hin.
      apply (proj1 (spec_from_algo_None _ id) Hn).
      apply list_elem_of_In. eapply elem_of_sublist.
      - apply list_elem_of_In, Hin.
      - apply mac_list_table_sublist. }
    split; [exact Hc|]. unfold gcry_mac_algo_name. rewrite Hc. reflexivity.
Qed.

Section OnSample.

Import Sample.

Lemma sample_names_distinct : names_distinct sample_list.
Proof. apply names_distinctb_correct. vm_compute. reflexivity. Qed.

Lemma sample_registry_wf : registry_wf sample_list.
Proof.
  unfold registry_wf, sample_list.
  repeat (constructor; [repeat split; discriminate|]).
  constructor.
Qed.

Lemma sample_open :
  gcry_mac_open toy_zero sample_list 101 0 None world0
  = Some ((0, Some 1%positive), world1).
Proof. vm_compute. reflexivity. Qed.

Lemma sample_bound : bound_to world1 (Some 1%positive) toy_ops.
Proof. vm_compute. reflexivity. Qed.

Lemma sample_block : heap world1 !! 1%positive = Some block1.
Proof. vm_compute. reflexivity. Qed.

(** One whole session on the toy algorithm: open, set the key "key", feed
    "hi", read the tag into an eight-byte buffer, verify the right tag and
    a wrong one, close. *)
Lemma sample_session :
  exists w,
    (r <- gcry_mac_open toy_zero sample_list 101 0 None ;;
     e1 <- gcry_mac_setkey (snd r) (Some [Byte.x6b; Byte.x65; Byte.x79]) 3 ;;
     e2 <- gcry_mac_write (snd r) (Some [Byte.x68; Byte.x69]) 2 ;;
     t <- gcry_mac_read (snd r) (Some (repeat Byte.x00 8)) (Some 8%N) ;;
     v <- gcry_mac_verify (snd r)
            (Some [Byte.x6b; Byte.x65; Byte.x79; Byte.x68; Byte.x69]) 5 ;;
     v' <- gcry_mac_verify (snd r)
             (Some [Byte.x6b; Byte.x65; Byte.x79; Byte.x68; Byte.x68]) 5 ;;
     gcry_mac_close toy_zero (snd r) ;;;
     ret (e1, e2, t, v, v')) world0
    = Some ((0, 0,
             (0, (Some [Byte.x6b; Byte.x65; Byte.x79; Byte.x68; Byte.x69;
                        Byte.x00; Byte.x00; Byte.x00], Some 5%N)),
             0, gpg_error GPG_ERR_CHECKSUM), w) /\
    heap w = ∅ /\
    trace w = [EvCalloc NormalPool (Some 1%positive);
               EvCall OpOpen 1%positive; EvCall OpSetkey 1%positive;
               EvCall OpWrite 1%positive; EvCall OpRead 1%positive;
               EvCall OpVerify 1%positive; EvCall OpVerify 1%positive;
               EvCall OpClose 1%positive; EvWipe 1%positive;
               EvFree 1%positive].
Proof.
  eexists. split; [vm_compute; reflexivity|].
  split; vm_compute; reflexivity.
Qed.

Lemma algo_name_round_trip_witness :
  names_distinct sample_list /\
  (exists s, In s sample_list /\ algo s = 101) /\
  gcry_mac_algo_name sample_list
    (gcry_mac_map_name sample_list (Some (gcry_mac_algo_name sample_list 101)))
  = "HMAC_SHA256"%string.
Proof.
  assert (Hreg : exists s, In s sample_list /\ algo s = 101).
  { exists hmac_sha256. split; [simpl; auto|reflexivity]. }
  split; [exact sample_names_distinct|]. split; [exact Hreg|].
  rewrite (algo_name_round_trip sample_list 101 sample_names_distinct Hreg).
  reflexivity.
Defined.

Lemma algo_name_map_name_contract_witness :
  registry_wf sample_list /\
  gcry_mac_algo_name sample_list 0 = "?"%string /\
  (forall id, gcry_mac_algo_name sample_list id <> ""%string) /\
  gcry_mac_map_name sample_list (Some ""%string) = 0 /\
  (exists s, In s sample_list /\ stricmp "hmac_sha1" (name s) = 0 /\
             gcry_mac_map_name sample_list (Some "hmac_sha1"%string) = algo s /\
             algo s <> 0).
Proof.
  split; [exact sample_registry_wf|].
  destruct (algo_name_map_name_contract sample_list sample_registry_wf)
    as (_ & _ & H0 & Hne & _ & He & _ & Hk).
  split; [exact H0|]. split; [exact Hne|]. split; [exact He|].
  apply Hk. exists hmac_sha1. split; [simpl; auto|reflexivity].
Defined.

(** C2, as stated, fails: algorithm 107 of the sample registry is
    registered and enabled but has no capability table, and the
    availability test succeeds for it. *)
Lemma test_algo_ignores_capability_table :
  spec_from_algo sample_list 107 = Some hmac_md4 /\
  flags_disabled hmac_md4 = false /\
  ops hmac_md4 = None /\
  check_mac_algo sample_list 107 = 0 /\
  gcry_mac_algo_info sample_list 107 GCRYCTL_TEST_ALGO None None = (0, None).
Proof. repeat split. Qed.

Lemma check_mac_algo_enabled_witness :
  check_mac_algo sample_list 101 = 0 /\
  check_mac_algo sample_list 106 = GPG_ERR_MAC_ALGO /\
  check_mac_algo sample_list 42 = GPG_ERR_MAC_ALGO.
Proof.
  split.
  - apply (check_mac_algo_enabled sample_list 101).
    exists hmac_sha256. split; reflexivity.
  - split; reflexivity.
Defined.

Lemma algo_keylen_queries_witness :
  gcry_mac_get_algo_keylen sample_list 42 = 0%N /\
  gcry_mac_get_algo_keylen sample_list 107 = 0%N /\
  gcry_mac_get_algo_keylen sample_list 109 = 0%N /\
  gcry_mac_get_algo_maclen sample_list 109 = 16%N /\
  gcry_mac_algo_info sample_list 101 GCRYCTL_GET_KEYLEN None (Some 0%N)
  = (0, Some 64%N) /\
  gcry_mac_algo_info sample_list 42 GCRYCTL_GET_KEYLEN None (Some 7%N)
  = (gcry_error GPG_ERR_MAC_ALGO, Some 7%N) /\
  gcry_mac_algo_info sample_list 101 5 None None
  = (gcry_error GPG_ERR_INV_OP, None).
Proof.
  destruct (algo_keylen_queries sample_list 42) as (H1 & _ & _ & _ & H5 & _).
  destruct (algo_keylen_queries sample_list 107) as (_ & H2 & _).
  destruct (algo_keylen_queries sample_list 109) as (_ & _ & H3 & _).
  destruct (algo_keylen_queries sample_list 101) as (_ & _ & _ & H4 & _ & _ & H7).
  split; [apply H1; reflexivity|].
  split; [apply (H2 hmac_md4); reflexivity|].
  split; [apply (H3 hmac_tiger toy_ops_partial); reflexivity|].
  split; [apply (H3 hmac_tiger toy_ops_partial); reflexivity|].
  split; [apply (H4 0%N); discriminate|].
  split; [apply (H5 7%N); reflexivity|].
  apply H7; discriminate.
Defined.

(** C1, as stated, fails: the handle opened for algorithm 101 is bound to
    a capability table without setiv, and setiv on it returns
    [GPG_ERR_INV_ARG], which is not [GPG_ERR_INV_OP]. *)
Lemma missing_setiv_returns_inv_arg :
  gcry_mac_open toy_zero sample_list 101 0 None world0
  = Some ((0, Some 1%positive), world1) /\
  bound_to world1 (Some 1%positive) toy_ops /\
  setiv toy_ops = None /\
  gcry_mac_setiv (Some 1%positive) None 0 world1
  = Some (gpg_error GPG_ERR_INV_ARG, world1) /\
  gpg_err_code (gpg_error GPG_ERR_INV_ARG) = GPG_ERR_INV_ARG /\
  GPG_ERR_INV_ARG <> GPG_ERR_INV_OP /\
  gpg_error GPG_ERR_INV_ARG <> gpg_error GPG_ERR_INV_OP.
Proof.
  split; [exact sample_open|]. split; [exact sample_bound|].
  split; [reflexivity|]. split; [vm_compute; reflexivity|].
  split; [reflexivity|]. split; discriminate.
Qed.

Lemma bare_bound : bound_to world_bare (Some 7%positive) toy_ops_empty.
Proof. vm_compute. reflexivity. Qed.

Lemma missing_capability_inv_arg_witness :
  bound_to world_bare (Some 7%positive) toy_ops_empty /\
  gcry_mac_setkey (Some 7%positive) (Some [Byte.x6b]) 1 world_bare
  = Some (gpg_error GPG_ERR_INV_ARG, world_bare) /\
  gcry_mac_setiv (Some 7%positive) None 0 world_bare
  = Some (gpg_error GPG_ERR_INV_ARG, world_bare) /\
  gcry_mac_write (Some 7%positive) (Some [Byte.x61; Byte.x62]) 2 world_bare
  = Some (gpg_error GPG_ERR_INV_ARG, world_bare) /\
  gcry_mac_read (Some 7%positive) (Some [Byte.x00]) (Some 1%N) world_bare
  = Some ((gpg_error GPG_ERR_INV_ARG, (Some [Byte.x00], Some 1%N)), world_bare) /\
  gcry_mac_verify (Some 7%positive) (Some [Byte.x00]) 1 world_bare
  = Some (gpg_error GPG_ERR_INV_ARG, world_bare).
Proof.
  split; [exact bare_bound|].
  destruct (missing_capability_inv_arg world_bare (Some 7%positive)
              toy_ops_empty bare_bound) as (Hk & Hi & Hw & Hr & Hv & _).
  split; [apply Hk; reflexivity|]. split; [apply Hi; reflexivity|].
  split; [apply Hw; reflexivity|]. split; [apply Hr; reflexivity|].
  apply Hv; reflexivity.
Defined.

Lemma generic_argument_validation_witness :
  bound_to world1 (Some 1%positive) toy_ops /\
  heap world1 !! 1%positive = Some block1 /\
  gcry_mac_setkey (Some 1%positive) None 0 world1
  = Some (0, called OpSetkey 1%positive block1 toy_zero world1) /\
  (exists w', gcry_mac_write (Some 1%positive) None 0 world1 = Some (0, w') /\
              heap w' = heap world1 /\
              trace w' = trace world1 ++ [EvCall OpWrite 1%positive]) /\
  gcry_mac_setkey (Some 1%positive) None 16 world1
  = Some (gpg_error GPG_ERR_INV_ARG, world1) /\
  gcry_mac_read (Some 1%positive) (Some [Byte.x00]) (Some 0%N) world1
  = Some ((gpg_error GPG_ERR_INV_ARG, (Some [Byte.x00], Some 0%N)), world1).
Proof.
  split; [exact sample_bound|]. split; [exact sample_block|].
  destruct (generic_argument_validation world1 1%positive block1 toy_ops
              sample_bound sample_block) as (Hk & _ & Hw & Hr).
  destruct (Hk toy_setkey eq_refl) as (Hk0 & _ & Hkn).
  destruct (Hw toy_write eq_refl) as (_ & Hw0 & _).
  split; [exact Hk0|]. split; [apply Hw0; reflexivity|].
  split; [apply Hkn; reflexivity|].
  apply Hr. right; right. reflexivity.
Defined.

Lemma close_sequence_witness :
  bound_to world1 (Some 1%positive) toy_ops /\
  heap world1 !! 1%positive = Some block1 /\
  exists w3,
    gcry_mac_close toy_zero (Some 1%positive) world1 = Some (tt, w3) /\
    heap w3 !! 1%positive = None /\
    trace w3 = [EvCalloc NormalPool (Some 1%positive); EvCall OpOpen 1%positive;
                EvCall OpClose 1%positive; EvWipe 1%positive;
                EvFree 1%positive].
Proof.
  split; [exact sample_bound|]. split; [exact sample_block|].
  destruct (close_sequence toy_zero world1 1%positive block1 toy_ops
              sample_bound sample_block)
    as (w1 & w2 & w3 & _ & _ & _ & _ & Hc & _ & Hgone & Htr).
  exists w3. split; [exact Hc|]. split; [exact Hgone|]. exact Htr.
Defined.

Lemma open_error_contract_witness :
  gcry_mac_open toy_zero sample_list 101 2 None world0
  = Some ((gpg_error GPG_ERR_INV_ARG, None), world0) /\
  gcry_mac_open toy_zero sample_list 42 0 None world0
  = Some ((gpg_error GPG_ERR_MAC_ALGO, None), world0) /\
  gcry_mac_open toy_zero sample_list 106 1 None world0
  = Some ((gpg_error GPG_ERR_MAC_ALGO, None), world0) /\
  gcry_mac_open toy_zero sample_list 107 0 None world0
  = Some ((gpg_error GPG_ERR_MAC_ALGO, None), world0) /\
  gcry_mac_open toy_zero sample_list 109 0 None world0
  = Some ((gpg_error GPG_ERR_MAC_ALGO, None), world0) /\
  gcry_mac_open toy_zero sample_list 108 1 None world0
  = Some ((gpg_error GPG_ERR_NOT_SUPPORTED, None),
          open_undone SecurePool world0) /\
  trace (open_undone SecurePool world0)
  = [EvCalloc SecurePool (Some 1%positive); EvCall OpOpen 1%positive;
     EvFree 1%positive].
Proof.
  destruct (open_error_contract toy_zero sample_list 101 2 None world0)
    as (_ & Ha & _).
  destruct (open_error_contract toy_zero sample_list 42 0 None world0)
    as (_ & _ & Hb1 & _).
  destruct (open_error_contract toy_zero sample_list 106 1 None world0)
    as (_ & _ & Hb2 & _).
  destruct (open_error_contract toy_zero sample_list 107 0 None world0)
    as (_ & _ & Hb3 & _).
  destruct (open_error_contract toy_zero sample_list 109 0 None world0)
    as (_ & _ & Hb4 & _).
  destruct (open_error_contract toy_zero sample_list 108 1 None world0)
    as (_ & _ & _ & Hc & _).
  split; [apply Ha; exists 1; split; [lia|reflexivity]|].
  split; [apply Hb1; [reflexivity|left; reflexivity]|].
  split.
  { apply Hb2; [reflexivity|]. right. exists hmac_md5.
    split; [reflexivity|]. left. reflexivity. }
  split.
  { apply Hb3; [reflexivity|]. right. exists hmac_md4.
    split; [reflexivity|]. right; left. reflexivity. }
  split.
  { apply Hb4; [reflexivity|]. right. exists hmac_tiger.
    split; [reflexivity|]. right; right. exists toy_ops_partial.
    split; [reflexivity|]. do 4 right. left. reflexivity. }
  split; [|vm_compute; reflexivity].
  apply (Hc hmac_rmd160 toy_ops_badopen toy_open_fails);
    try reflexivity; discriminate.
Defined.

(** A handle can be opened although its descriptor has neither [setiv] nor
    [close]: these two entries are optional. *)
Lemma setiv_and_close_optional :
  exists w', gcry_mac_open toy_zero sample_list 105 0 None world0
             = Some ((0, Some 1%positive), w') /\
             bound_to w' (Some 1%positive) toy_ops_noclose /\
             setiv toy_ops_noclose = None /\ close toy_ops_noclose = None.
Proof.
  eexists. split; [vm_compute; reflexivity|].
  split; [vm_compute; reflexivity|]. split; reflexivity.
Qed.

Lemma sample_open_secure :
  gcry_mac_open toy_zero sample_list 101 1 None world0
  = Some ((0, Some 1%positive), world1s).
Proof. vm_compute. reflexivity. Qed.

Lemma secure_binding_witness :
  gcry_mac_open toy_zero sample_list 101 1 None world0
  = Some ((0, Some 1%positive), world1s) /\
  exists b,
    heap world1s !! 1%positive = Some b /\
    blk_pool b = SecurePool /\
    magic (blk_data b) = CTX_MAGIC_SECURE /\
    forall rs w'',
      Forall (fun r => closes 1%positive r = false) rs ->
      run toy_zero sample_list rs world1s = Some (tt, w'') ->
      exists b', heap w'' !! 1%positive = Some b' /\
                 blk_pool b' = SecurePool /\
                 magic (blk_data b') = CTX_MAGIC_SECURE.
Proof.
  split; [exact sample_open_secure|].
  destruct (secure_binding toy_zero sample_list 101 1 None world0 world1s
              (Some 1%positive) sample_open_secure)
    as (a & b & Ha & _ & Hb & Hsec & _ & Hmag & _ & _ & _ & _ & Hlife).
  injection Ha as <-.
  assert (Hp : blk_pool b = SecurePool) by (apply Hsec; reflexivity).
  assert (Hm : magic (blk_data b) = CTX_MAGIC_SECURE) by (apply Hmag, Hp).
  exists b. split; [exact Hb|].
  split; [exact Hp|]. split; [exact Hm|].
  intros rs w'' Hall Hrun.
  destruct (Hlife rs w'' Hall Hrun) as (b' & Hb' & Hp' & Hm').
  exists b'. split; [exact Hb'|]. split; congruence.
Defined.

Lemma opened_handle_complete_witness :
  gcry_mac_open toy_zero sample_list 101 0 None world0
  = Some ((0, Some 1%positive), world1) /\
  exists w'' b,
    run toy_zero sample_list
        [ReqSetkey (Some 1%positive) (Some [Byte.x6b; Byte.x65; Byte.x79]) 3;
         ReqSetiv (Some 1%positive) None 0;
         ReqWrite (Some 1%positive) (Some [Byte.x68; Byte.x69]) 2]
        world1 = Some (tt, w'') /\
    heap w'' !! 1%positive = Some b /\
    spec (blk_data b) = Some hmac_sha256 /\
    forwards w'' 1%positive b toy_ops.
Proof.
  split; [exact sample_open|].
  destruct (opened_handle_complete toy_zero sample_list 101 0 None world0
              world1 (Some 1%positive) sample_open)
    as (a & s & o & Ha & Hin & Ho & _ & Hlife).
  injection Ha as <-.
  set (rs := [ReqSetkey (Some 1%positive) (Some [Byte.x6b; Byte.x65; Byte.x79]) 3;
              ReqSetiv (Some 1%positive) None 0;
              ReqWrite (Some 1%positive) (Some [Byte.x68; Byte.x69]) 2]).
  assert (Hall : Forall (fun r => closes 1%positive r = false) rs)
    by (repeat constructor).
  destruct (run toy_zero sample_list rs world1) as [[[] w'']|] eqn:Hrun;
    [|vm_compute in Hrun; discriminate].
  destruct (Hlife rs w'' Hall Hrun) as (b & Hb & Hs & Hbound & Hfw).
  assert (Hso : s = hmac_sha256 /\ o = toy_ops).
  { destruct (run_keeps toy_zero sample_list 1%positive rs world1 w''
                Hall Hrun block1 sample_block)
      as (b' & Hb' & _ & _ & _ & Hsp & _).
    assert (b' = b) by congruence. subst b'.
    rewrite Hs in Hsp. injection Hsp as ->.
    split; [reflexivity|]. simpl in Ho. congruence. }
  destruct Hso as [-> ->].
  exists w'', b. auto.
Defined.

(** *** The further properties on the sample registry *)

Lemma sample_ids_distinct : ids_distinct sample_list.
Proof.
  unfold ids_distinct. apply (bool_decide_unpack _). vm_compute. exact I.
Qed.


Lemma registered_name_resolves_witness :
  names_distinct sample_list /\ In hmac_rmd160 sample_list /\
  gcry_mac_map_name sample_list (Some "HMAC_RIPEMD160"%string) = 108.
Proof.
  assert (Hin : In hmac_rmd160 sample_list) by (simpl; auto 15).
  split; [exact sample_names_distinct|]. split; [exact Hin|].
  apply (registered_name_resolves sample_list hmac_rmd160
           sample_names_distinct Hin).
Defined.


Lemma handle_isolation_witness :
  exists w',
    perform toy_zero sample_list (ReqClose (Some 1%positive)) world_two
    = Some (tt, w') /\
    heap world_two !! 7%positive
    = Some {| blk_pool := NormalPool; blk_data := bare_handle |} /\
    heap w' !! 7%positive
    = Some {| blk_pool := NormalPool; blk_data := bare_handle |} /\
    heap w' !! 1%positive = None.
Proof.
  destruct (perform toy_zero sample_list (ReqClose (Some 1%positive)) world_two)
    as [[[] w']|] eqn:Hp; [|vm_compute in Hp; discriminate].
  assert (Hl : heap world_two !! 7%positive
               = Some {| blk_pool := NormalPool; blk_data := bare_handle |})
    by (vm_compute; reflexivity).
  exists w'. split; [reflexivity|]. split; [exact Hl|].
  split.
  - apply (handle_isolation toy_zero sample_list _ _ _ _ _ Hp Hl).
    discriminate.
  - simpl in Hp. unfold gcry_mac_close in Hp.
    destruct (mac_close_heap _ _ _ _ Hp) as (a & [= <-] & ->).
    apply lookup_delete_eq.
Defined.


Lemma open_out_of_memory_witness :
  room (pool_of (1 =? GCRY_MAC_FLAG_SECURE)) world_nosecure = O /\
  exists w',
    gcry_mac_open toy_zero sample_list 101 1 None world_nosecure
    = Some ((gpg_error GPG_ERR_ENOMEM, None), w') /\
    heap w' = heap world_nosecure /\
    trace w' = [EvCalloc SecurePool None].
Proof.
  split; [reflexivity|].
  destruct (open_out_of_memory toy_zero sample_list 101 1 None world_nosecure
              hmac_sha256 toy_ops (or_intror eq_refl) eq_refl eq_refl eq_refl
              eq_refl eq_refl)
    as (w' & Ho & Hh & Ht).
  exists w'. auto.
Defined.

Lemma use_after_close_witness :
  exists w',
    gcry_mac_close toy_zero (Some 1%positive) world1 = Some (tt, w') /\
    gcry_mac_close toy_zero (Some 1%positive) w' = None /\
    gcry_mac_write (Some 1%positive) (Some [Byte.x68]) 1 w' = None.
Proof.
  destruct (gcry_mac_close toy_zero (Some 1%positive) world1)
    as [[[] w']|] eqn:Hc; [|vm_compute in Hc; discriminate].
  destruct (use_after_close toy_zero _ _ _ Hc) as (H1 & _ & _ & H4 & _).
  exists w'. split; [reflexivity|]. split; [exact H1|apply H4].
Defined.

Lemma ctl_contract_witness :
  gcry_mac_ctl (Some 1%positive) GCRYCTL_TEST_ALGO None 0 world1
  = Some (gcry_error GPG_ERR_INV_OP, world1) /\
  gcry_mac_ctl (@None loc) 0 None 0 world1
  = Some (gcry_error GPG_ERR_INV_OP, world1) /\
  gcry_mac_ctl (Some 7%positive) GCRYCTL_RESET None 0 world_bare
  = Some (0, world_bare).
Proof.
  destruct (ctl_contract (Some 1%positive) world1) as (H1 & _).
  destruct (ctl_contract (@None loc) world1) as (H2 & _).
  destruct (ctl_contract (Some 7%positive) world_bare) as (_ & _ & H3).
  split; [apply H1; discriminate|]. split; [apply H2; discriminate|].
  apply (H3 toy_ops_empty); [exact bare_bound|reflexivity].
Defined.

Lemma update_success_inv_witness :
  gcry_mac_setkey (Some 1%positive) (Some [Byte.x6b]) 1 world1
  = Some (0, called OpSetkey 1%positive block1
               {| t_key := [Byte.x6b]; t_msg := [] |} world1) /\
  ran_ok OpSetkey setkey (Some 1%positive) (Some [Byte.x6b]) 1 world1
    (called OpSetkey 1%positive block1
       {| t_key := [Byte.x6b]; t_msg := [] |} world1).
Proof.
  assert (Hk : gcry_mac_setkey (Some 1%positive) (Some [Byte.x6b]) 1 world1
               = Some (0, called OpSetkey 1%positive block1
                            {| t_key := [Byte.x6b]; t_msg := [] |} world1))
    by (vm_compute; reflexivity).
  split; [exact Hk|].
  apply (update_success_inv (Some 1%positive) (Some [Byte.x6b]) 1 world1).
  exact Hk.
Defined.

Lemma verify_success_inv_witness :
  gcry_mac_verify (Some 1%positive) (Some []) 1 world1
  = Some (0, called OpVerify 1%positive block1 toy_zero world1) /\
  exists f, verify toy_ops = Some f /\
            fst (f (view (blk_data block1)) [] 1%N) = 0.
Proof.
  assert (Hv : gcry_mac_verify (Some 1%positive) (Some []) 1 world1
               = Some (0, called OpVerify 1%positive block1 toy_zero world1))
    by (vm_compute; reflexivity).
  split; [exact Hv|].
  destruct (verify_success_inv _ _ _ _ _ Hv)
    as (a & b & o & f & bs & [= <-] & Hl & Hb & Hf & [= <-] & _ & He & _).
  assert (Hbe : Some b = Some block1)
    by (etransitivity; [symmetry; exact Hl|exact sample_block]).
  injection Hbe as ->.
  assert (Hoe : Some (o, world1) = Some (toy_ops, world1))
    by (etransitivity; [symmetry; exact Hb|exact sample_bound]).
  injection Hoe as ->. eauto.
Defined.

Lemma read_success_inv_witness :
  gcry_mac_read (Some 1%positive) (Some [Byte.xff]) (Some 1%N) world1
  = Some ((0, (Some [Byte.xff], Some 0%N)),
          called OpRead 1%positive block1 toy_zero world1) /\
  exists f, read toy_ops = Some f /\
            fst (fst (f (view (blk_data block1)) [Byte.xff] 1%N)) = 0.
Proof.
  assert (Hr : gcry_mac_read (Some 1%positive) (Some [Byte.xff]) (Some 1%N)
                 world1
               = Some ((0, (Some [Byte.xff], Some 0%N)),
                       called OpRead 1%positive block1 toy_zero world1))
    by (vm_compute; reflexivity).
  split; [exact Hr|].
  destruct (read_success_inv _ _ _ _ _ _ Hr)
    as (a & b & o & f & bs & n & [= <-] & Hl & Hb & Hf & [= <-] & [= <-]
        & _ & He & _).
  assert (Hbe : Some b = Some block1)
    by (etransitivity; [symmetry; exact Hl|exact sample_block]).
  injection Hbe as ->.
  assert (Hoe : Some (o, world1) = Some (toy_ops, world1))
    by (etransitivity; [symmetry; exact Hb|exact sample_bound]).
  injection Hoe as ->. eauto.
Defined.

Lemma open_implies_available_witness :
  gcry_mac_open toy_zero sample_list 101 0 None world0
  = Some ((0, Some 1%positive), world1) /\
  check_mac_algo sample_list 101 = 0 /\
  gcry_mac_algo_info sample_list 101 GCRYCTL_TEST_ALGO None None = (0, None).
Proof.
  split; [exact sample_open|].
  destruct (open_implies_available toy_zero sample_list 101 0 None world0
              world1 (Some 1%positive) sample_open) as (Hc & Hi & _).
  auto.
Defined.

Lemma opened_handle_fields_witness :
  gcry_mac_open toy_zero sample_list 101 0 None world0
  = Some ((0, Some 1%positive), world1) /\
  forall rs w'',
    Forall (fun r => closes 1%positive r = false) rs ->
    run toy_zero sample_list rs world1 = Some (tt, w'') ->
    exists b', heap w'' !! 1%positive = Some b' /\
               h_algo (blk_data b') = 101 /\
               gcry_ctx (blk_data b') = None.
Proof.
  split; [exact sample_open|].
  destruct (opened_handle_fields toy_zero sample_list 101 0 None world0
              world1 (Some 1%positive) sample_open)
    as (a & b & s & o & f & [= <-] & _ & _ & _ & _ & _ & _ & Hlife).
  intros rs w'' Hall Hrun.
  destruct (Hlife rs w'' Hall Hrun) as (b' & Hb' & Ha & _ & Hc).
  exists b'. auto.
Defined.

Lemma table_lookup_stable_witness :
  ids_distinct (mac_list_table all_features toy_specs) /\
  spec_from_algo (mac_list_table small_build toy_specs) 110
  = Some (_gcry_mac_type_spec_hmac_whirlpool toy_specs) /\
  spec_from_algo (mac_list_table all_features toy_specs) 110
  = Some (_gcry_mac_type_spec_hmac_whirlpool toy_specs) /\
  spec_from_algo (mac_list_table small_build toy_specs) 42 = None.
Proof.
  split; [exact sample_ids_distinct|].
  destruct (table_lookup_stable small_build toy_specs sample_ids_distinct)
    as [Hsome Hnone].
  assert (Hs : spec_from_algo (mac_list_table small_build toy_specs) 110
               = Some (_gcry_mac_type_spec_hmac_whirlpool toy_specs))
    by reflexivity.
  split; [exact Hs|]. split; [apply (Hsome _ _ Hs)|].
  apply Hnone. reflexivity.
Defined.

End OnSample.
